(** * seekr: normalisation, artist tokenisation and the two corpus scanners

    A shallow embedding of [seekr.py]: the text normaliser ([norm] and its
    two stripping passes), the artist tokenizer ([split_artists]), the
    Rekordbox scanner ([scan_rekordbox]), the filesystem scanner
    ([scan_files]) and the summary counts computed in [main].

    Python strings are modelled as [string] over the code points 0..255.
    The similarity scorer [fuzz.token_set_ratio] belongs to an external
    library: the scanners take it as a parameter, and its results are only
    compared, ordered and combined with [max] and [min], so they are
    modelled as integers. *)

From Stdlib Require Import Bool Arith NArith ZArith Lia List Ascii String.
From Stdlib Require Import Sorted Permutation.
Import ListNotations.

Open Scope string_scope.

(** ** Characters *)

Module Char.

Definition code (c : ascii) : N := N_of_ascii c.

Definition between (lo hi : N) (c : ascii) : bool :=
  (lo <=? code c)%N && (code c <=? hi)%N.

(* cased letters that have a lower-case partner below 256 *)
Definition is_upper (c : ascii) : bool :=
  between 65 90 c || (between 192 222 c && negb (code c =? 215)%N).

Definition is_lower_ascii (c : ascii) : bool := between 97 122 c.

Definition is_letter_ascii (c : ascii) : bool :=
  between 65 90 c || between 97 122 c.

(* str.lower on one character *)
Definition lower (c : ascii) : ascii :=
  if is_upper c then ascii_of_N (code c + 32) else c.

(* str.upper on one character; used on the ASCII pattern literals only *)
Definition upper (c : ascii) : ascii :=
  if is_lower_ascii c then ascii_of_N (code c - 32) else c.

(* str.isspace, which is also the class \s of the re module *)
Definition is_space (c : ascii) : bool :=
  between 9 13 c || between 28 32 c
  || (code c =? 133)%N || (code c =? 160)%N.

(* the class \w of the re module: alphanumeric or underscore *)
Definition is_word (c : ascii) : bool :=
  between 48 57 c || between 65 90 c || between 97 122 c
  || (code c =? 95)%N
  || (code c =? 170)%N || (code c =? 178)%N || (code c =? 179)%N
  || (code c =? 181)%N || (code c =? 185)%N || (code c =? 186)%N
  || between 188 190 c
  || between 192 214 c || between 216 246 c || between 248 255 c.

Definition newline : ascii := ascii_of_N 10.

End Char.

(** ** String methods used by the program *)

Module Str.

Fixpoint all_chars (P : ascii -> bool) (s : string) : bool :=
  match s with
  | EmptyString => true
  | String c s' => P c && all_chars P s'
  end.

(* s.lower() *)
Fixpoint lower (s : string) : string :=
  match s with
  | EmptyString => EmptyString
  | String c s' => String (Char.lower c) (lower s')
  end.

(* s.upper() *)
Fixpoint upper (s : string) : string :=
  match s with
  | EmptyString => EmptyString
  | String c s' => String (Char.upper c) (upper s')
  end.

(* s.title(): a letter is upper-cased after a non-letter and lower-cased
   after a letter *)
Fixpoint title_from (after_letter : bool) (s : string) : string :=
  match s with
  | EmptyString => EmptyString
  | String c s' =>
      if Char.is_letter_ascii c
      then String (if after_letter then Char.lower c else Char.upper c)
                  (title_from true s')
      else String c (title_from false s')
  end.

Definition title (s : string) : string := title_from false s.

Fixpoint lstrip (s : string) : string :=
  match s with
  | EmptyString => EmptyString
  | String c s' => if Char.is_space c then lstrip s' else s
  end.

Fixpoint rstrip (s : string) : string :=
  match s with
  | EmptyString => EmptyString
  | String c s' =>
      match rstrip s' with
      | EmptyString => if Char.is_space c then EmptyString
                       else String c EmptyString
      | r => String c r
      end
  end.

(* s.strip() *)
Definition strip (s : string) : string := rstrip (lstrip s).

(* s.replace(old, ''): the occurrences of [old] are found from left to
   right, each search resuming after the previous occurrence; [skip] counts
   the characters of the current occurrence still to be dropped *)
Fixpoint replace_from (old : string) (skip : nat) (s : string) : string :=
  match s with
  | EmptyString => EmptyString
  | String c s' =>
      match skip with
      | S k => replace_from old k s'
      | O => if prefix old s
             then replace_from old (Nat.pred (length old)) s'
             else String c (replace_from old 0 s')
      end
  end.

Definition replace (old s : string) : string :=
  match old with
  | EmptyString => s
  | _ => replace_from old 0 s
  end.

(* "sub in s" *)
Fixpoint contains (sub s : string) : bool :=
  prefix sub s ||
  match s with
  | EmptyString => false
  | String _ s' => contains sub s'
  end.

(* a truthy string is a non-empty one *)
Definition truthy (s : string) : bool :=
  match s with EmptyString => false | _ => true end.

End Str.

(** ** The fragment of the re module the patterns of the program use

    A pattern is an alternation of sequences of items; every repetition in
    the program's patterns is over a single character class.  Matching is by
    backtracking with the priorities of the re module: a greedy item tries
    the longer match first, a lazy one the shorter, alternatives are tried
    from left to right. *)

Module Re.

Inductive cclass : Type :=
| CChar (c : ascii)          (* a literal character *)
| CDot                       (* .   any character but a newline *)
| CSpace                     (* \s *)
| CSet (cs : list ascii).    (* [...] *)

Inductive item : Type :=
| One (c : cclass)
| Opt (c : cclass)           (* c?  *)
| Star (c : cclass)          (* c*  *)
| Lazy (c : cclass)          (* c*? *)
| WordB                      (* \b  *)
| Eos.                       (* $   *)

Definition seq := list item.
Definition pattern := list seq.

(* c+ is c followed by c* *)
Definition plus (c : cclass) : seq := [One c; Star c].

Fixpoint lit (s : string) : seq :=
  match s with
  | EmptyString => []
  | String c s' => One (CChar c) :: lit s'
  end.

(* [ic] is the flag re.IGNORECASE *)
Definition same_char (ic : bool) (a x : ascii) : bool :=
  if ic then Ascii.eqb (Char.lower a) (Char.lower x) else Ascii.eqb a x.

Definition in_class (ic : bool) (c : cclass) (x : ascii) : bool :=
  match c with
  | CChar a => same_char ic a x
  | CDot => negb (Ascii.eqb x Char.newline)
  | CSpace => Char.is_space x
  | CSet cs => existsb (fun a => same_char ic a x) cs
  end.

Definition word_before (prev : option ascii) : bool :=
  match prev with Some c => Char.is_word c | None => false end.

Definition word_at (s : string) : bool :=
  match s with String c _ => Char.is_word c | EmptyString => false end.

(* $ without re.MULTILINE: the end of the string, or just before a
   newline that ends the string *)
Definition at_end (s : string) : bool :=
  match s with
  | EmptyString => true
  | String c EmptyString => Ascii.eqb c Char.newline
  | _ => false
  end.

(* [match_seq ic p prev s]: the length of the match of [p] at the start of
   [s], when there is one; [prev] is the character before [s] *)
Fixpoint match_seq (ic : bool) (p : seq) (prev : option ascii) (s : string)
  {struct p} : option nat :=
  match p with
  | [] => Some 0
  | One c :: p' =>
      match s with
      | String x s' =>
          if in_class ic c x
          then option_map S (match_seq ic p' (Some x) s')
          else None
      | EmptyString => None
      end
  | Opt c :: p' =>
      match s with
      | String x s' =>
          if in_class ic c x
          then match match_seq ic p' (Some x) s' with
               | Some n => Some (S n)
               | None => match_seq ic p' prev s
               end
          else match_seq ic p' prev s
      | EmptyString => match_seq ic p' prev s
      end
  | Star c :: p' =>
      (fix star (prev : option ascii) (s : string) {struct s} : option nat :=
         match s with
         | String x s' =>
             if in_class ic c x
             then match star (Some x) s' with
                  | Some n => Some (S n)
                  | None => match_seq ic p' prev s
                  end
             else match_seq ic p' prev s
         | EmptyString => match_seq ic p' prev s
         end) prev s
  | Lazy c :: p' =>
      (fix lazy (prev : option ascii) (s : string) {struct s} : option nat :=
         match match_seq ic p' prev s with
         | Some n => Some n
         | None =>
             match s with
             | String x s' =>
                 if in_class ic c x
                 then option_map S (lazy (Some x) s')
                 else None
             | EmptyString => None
             end
         end) prev s
  | WordB :: p' =>
      if xorb (word_before prev) (word_at s)
      then match_seq ic p' prev s
      else None
  | Eos :: p' =>
      if at_end s then match_seq ic p' prev s else None
  end.

Fixpoint match_pat (ic : bool) (alts : pattern) (prev : option ascii)
  (s : string) : option nat :=
  match alts with
  | [] => None
  | p :: alts' =>
      match match_seq ic p prev s with
      | Some n => Some n
      | None => match_pat ic alts' prev s
      end
  end.

(* re.sub(pat, '', s): the matches are found from left to right and
   deleted; [skip] counts the characters of the current match still to be
   dropped.  An empty match deletes nothing. *)
Fixpoint sub_from (ic : bool) (pat : pattern) (skip : nat)
  (prev : option ascii) (s : string) : string :=
  match s with
  | EmptyString => EmptyString
  | String x s' =>
      match skip with
      | S k => sub_from ic pat k (Some x) s'
      | O =>
          match match_pat ic pat prev s with
          | Some (S n) => sub_from ic pat n (Some x) s'
          | _ => String x (sub_from ic pat 0 (Some x) s')
          end
      end
  end.

Definition sub (ic : bool) (pat : pattern) (s : string) : string :=
  sub_from ic pat 0 None s.

(* re.split(pat, s) for a pattern without groups that matches no empty
   string: the pieces between the matches; the head of the result is the
   piece in progress *)
Fixpoint split_from (ic : bool) (pat : pattern) (skip : nat)
  (prev : option ascii) (s : string) : list string :=
  match s with
  | EmptyString => [EmptyString]
  | String x s' =>
      match skip with
      | S k => split_from ic pat k (Some x) s'
      | O =>
          match match_pat ic pat prev s with
          | Some (S n) => EmptyString :: split_from ic pat n (Some x) s'
          | _ =>
              match split_from ic pat 0 (Some x) s' with
              | p :: ps => String x p :: ps
              | [] => [String x EmptyString]
              end
          end
      end
  end.

Definition split (ic : bool) (pat : pattern) (s : string) : list string :=
  split_from ic pat 0 None s.

End Re.

(** ** Normalisation *)

Definition ORIGINAL_MIX_PATTERNS : list string :=
  ["(original mix)"; "original mix"; "(orig mix)"; "orig mix"].

Import Re.

Definition feat_tail : seq := [Opt (CChar "."); Star CDot; Eos].

Definition FEAT_PATTERNS : list pattern :=
  [ [lit "(ft" ++ [Opt (CChar "."); Lazy CDot; One (CChar ")")]];
    [lit "(feat" ++ [Opt (CChar "."); Lazy CDot; One (CChar ")")]];
    [lit "," ++ [Star CSpace] ++ lit "ft" ++ feat_tail];
    [lit "," ++ [Star CSpace] ++ lit "feat" ++ feat_tail];
    [plus CSpace ++ lit "ft" ++ feat_tail];
    [plus CSpace ++ lit "feat" ++ feat_tail] ]%list.

(** A value read off a record or passed to the normaliser: [None] or a
    string. *)
Inductive value : Type :=
| VNone
| VStr (s : string).

Coercion VStr : string >-> value.

(* s or '' *)
Definition or_empty (v : value) : string :=
  match v with
  | VNone => ""
  | VStr s => s
  end.

Definition strip_mix_annotations (s : value) : string :=
  let t := or_empty s in
  let t := fold_left
             (fun t pat =>
                Str.replace (Str.upper pat)
                  (Str.replace (Str.title pat) (Str.replace pat t)))
             ORIGINAL_MIX_PATTERNS t in
  Str.strip t.

Definition strip_features (s : value) : string :=
  let t := or_empty s in
  let t := fold_left (fun t pat => Re.sub true pat t) FEAT_PATTERNS t in
  Str.strip t.

Definition norm (s : value) : string :=
  let t := Str.lower (or_empty s) in
  let t := strip_mix_annotations t in
  let t := strip_features t in
  Str.strip t.

(** ** Artist tokenizer *)

Definition ARTIST_SEPARATORS : pattern :=
  [ [One (CSet [","; "&"; "/"; ";"]%char)];
    [WordB] ++ lit "and" ++ [WordB] ]%list.

Definition split_artists (s : string) : list string :=
  let parts := Re.split true ARTIST_SEPARATORS s in
  map Str.strip (filter (fun p => Str.truthy (Str.strip p)) parts).

(** ** Hits and the final sort *)

(** A hit is the dictionary a scanner appends to its results; the database
    scanner leaves the key ['path'] out. *)
Record hit : Type := mk_hit {
  score : Z;
  item : string;
  path : option string
}.

(** [sorted(results, key=lambda x: x['score'], reverse=True)].  Python's sort
    is stable, also with [reverse=True]; a stable sort is determined by its
    input and key, and is written here as an insertion sort that puts an
    element before the first later element whose score is not greater. *)
Fixpoint insert_by_score (h : hit) (l : list hit) : list hit :=
  match l with
  | [] => [h]
  | y :: l' =>
      if (score h <? score y)%Z then y :: insert_by_score h l'
      else h :: l
  end.

Fixpoint sorted_by_score (l : list hit) : list hit :=
  match l with
  | [] => []
  | h :: l' => insert_by_score h (sorted_by_score l')
  end.

(** max(scores) if scores else 0 *)
Definition max_or_zero (scores : list Z) : Z :=
  match scores with
  | [] => 0%Z
  | x :: l => fold_left Z.max l x
  end.

(** ** Rekordbox records, read with [getattr] *)

(** The attribute [Artist] of a record, when it has one: [None] or an object
    whose attribute [Name] may be absent. *)
Inductive artist_value : Type :=
| ANone
| AObj (name : option value).

(** A record of the database; [None] stands for an absent attribute. *)
Record content : Type := mk_content {
  Title : option value;
  Artist : option artist_value
}.

(* getattr(c, 'Title', '') or '' *)
Definition raw_title_of (c : content) : string :=
  or_empty (match Title c with Some v => v | None => VStr "" end).

(* getattr(raw_artist_obj, 'Name', '') if raw_artist_obj else '' *)
Definition raw_artist_of (c : content) : value :=
  match Artist c with
  | Some (AObj name) => match name with Some v => v | None => VStr "" end
  | Some ANone | None => VStr ""
  end.

(* how an f-string renders a value *)
Definition fmt (v : value) : string :=
  match v with
  | VNone => "None"
  | VStr s => s
  end.

(** ** The filesystem under the scan root *)

(** An entry of a directory carries its name and the canonical path
    [resolve()] gives for it; symbolic links let two entries share one.  A
    symbolic link to a directory is an entry of its own kind: the traversal
    lists it and does not enter it. *)
#[local] Unset Elimination Schemes.
Inductive entry : Type :=
| File (name resolved : string)
| Dir (name resolved : string) (children : list entry)
| DirLink (name resolved : string).
#[local] Set Elimination Schemes.

Definition entry_name (e : entry) : string :=
  match e with File n _ | Dir n _ _ | DirLink n _ => n end.

Definition entry_resolved (e : entry) : string :=
  match e with File _ r | Dir _ r _ | DirLink _ r => r end.

(** A path yielded by [rglob]: [f.name], [f.relative_to(basepath).parts[:-1]]
    and [str(f.resolve())]. *)
Record found : Type := mk_found {
  f_name : string;
  rel_dirs : list string;
  f_resolved : string
}.

(* the glob pattern '*.*' matches the names that contain a dot *)
Definition glob_star_dot_star (name : string) : bool := Str.contains "." name.

(** [basepath.rglob('*.*')]: every directory of the tree, the root first and
    each directory before its subdirectories, yields its entries (files,
    directories and links alike) whose name matches the pattern; a symbolic
    link to a directory is not entered. *)
Fixpoint rglob_under (dirs : list string) (e : entry) : list found :=
  match e with
  | File _ _ | DirLink _ _ => []
  | Dir _ _ children =>
      (flat_map (fun c => if glob_star_dot_star (entry_name c)
                          then [mk_found (entry_name c) dirs (entry_resolved c)]
                          else []) children
       ++ flat_map (fun c => rglob_under (dirs ++ [entry_name c]) c) children)%list
  end.

Definition rglob (basepath : entry) : list found := rglob_under [] basepath.

Fixpoint rfind (c : ascii) (s : string) : option nat :=
  match s with
  | EmptyString => None
  | String x s' =>
      match rfind c s' with
      | Some i => Some (S i)
      | None => if Ascii.eqb x c then Some 0 else None
      end
  end.

(* f.stem: the name up to its last dot, unless that dot starts or ends it *)
Definition stem (name : string) : string :=
  match rfind "." name with
  | Some i => if ((0 <? i) && (i <? length name - 1))%nat
              then substring 0 i name else name
  | None => name
  end.

(** ** The scanners *)

Section Scanners.

(** [fuzz.token_set_ratio] *)
Variable token_set_ratio : string -> string -> Z.

(* split_artists(artist) if artist else [''] *)
Definition input_artists_of (artist : string) : list string :=
  if Str.truthy artist then split_artists artist else [""].

(* split_artists(a_val) or [''] *)
Definition db_artists_of (a_val : string) : list string :=
  match split_artists a_val with
  | [] => [""]
  | l => l
  end.

(* the two nested loops that raise best_score from 0 *)
Definition best_over (f : string -> string -> Z)
  (input_artists db_artists : list string) : Z :=
  fold_left
    (fun best in_a =>
       fold_left (fun best db_a => Z.max best (f in_a db_a)) db_artists best)
    input_artists 0%Z.

Definition record_score (title artist : string) (c : content) : Z :=
  let input_artists := input_artists_of artist in
  let t_val := norm (raw_title_of c) in
  let a_val := norm (raw_artist_of c) in
  let db_artists := db_artists_of a_val in
  if Str.truthy title && Str.truthy artist then
    best_over (fun in_a db_a =>
                 token_set_ratio (title ++ "::" ++ in_a)
                                 (t_val ++ "::" ++ db_a))
              input_artists db_artists
  else if Str.truthy title then token_set_ratio title t_val
  else if Str.truthy artist then
    best_over token_set_ratio input_artists db_artists
  else 0%Z.

Definition record_hit (title artist : string) (c : content) : hit :=
  mk_hit (record_score title artist c)
         (fmt (raw_artist_of c) ++ " - " ++ raw_title_of c)
         None.

(* the loop over the records, before the sort *)
Definition rekordbox_results (contents : list content)
  (title artist : string) (score_cut : Z) : list hit :=
  fold_left
    (fun results c =>
       if (score_cut <=? record_score title artist c)%Z
       then (results ++ [record_hit title artist c])%list
       else results)
    contents [].

Definition scan_rekordbox (contents : list content)
  (title artist : string) (score_cut : Z) : list hit :=
  sorted_by_score (rekordbox_results contents title artist score_cut).

Definition title_score (title : string) (f : found) : Z :=
  token_set_ratio title (norm (stem (f_name f))).

Definition a_scores (artist : string) (f : found) : list Z :=
  flat_map
    (fun d : string =>
       flat_map
         (fun db_a =>
            map (fun in_a => token_set_ratio in_a db_a)
                (input_artists_of artist))
         (split_artists (norm d)))
    (rel_dirs f).

Definition artist_score (artist : string) (f : found) : Z :=
  max_or_zero (a_scores artist f).

(** The body of the loop up to [if ok]: [Some best_score] when [ok] is set. *)
Definition file_score (title artist : string) (score_cut : Z) (f : found)
  : option Z :=
  if Str.truthy title && Str.truthy artist then
    let t_score := title_score title f in
    let a_score := artist_score artist f in
    if (score_cut <=? t_score)%Z && (score_cut <=? a_score)%Z
    then Some (Z.min t_score a_score) else None
  else if Str.truthy title then
    let t_score := title_score title f in
    if (score_cut <=? t_score)%Z then Some t_score else None
  else if Str.truthy artist then
    let a_score := artist_score artist f in
    if (score_cut <=? a_score)%Z then Some a_score else None
  else None.

Definition file_hit (best_score : Z) (f : found) : hit :=
  mk_hit best_score (f_name f) (Some (f_resolved f)).

Definition mem (p : string) (seen : list string) : bool :=
  existsb (String.eqb p) seen.

(** One iteration of the loop over the state [(results, seen)]. *)
Definition visit (title artist : string) (score_cut : Z)
  (st : list hit * list string) (f : found) : list hit * list string :=
  match file_score title artist score_cut f with
  | Some best_score =>
      let p := f_resolved f in
      if mem p (snd st) then st
      else ((fst st ++ [file_hit best_score f])%list, p :: snd st)
  | None => st
  end.

(* the loop over the paths, before the sort *)
Definition files_results (paths : list found) (title artist : string)
  (score_cut : Z) : list hit :=
  fst (fold_left (visit title artist score_cut) paths ([], [])).

Definition scan_files (basepath : entry) (title artist : string)
  (score_cut : Z) : list hit :=
  sorted_by_score (files_results (rglob basepath) title artist score_cut).

(** ** The summary of [main] *)

Record row : Type := mk_row { row_title : string; row_artist : string }.

Record result : Type := mk_result {
  r_artist : string;
  r_title : string;
  rb_count : nat;
  fs_count : nat;
  rb_items : list hit;
  fs_items : list hit
}.

(* the loop "process items"; [dir] is args.dir *)
Definition process_items (recs : list content) (dir : option entry)
  (score_cut : Z) (items : list row) : list result :=
  map (fun r =>
         let rb_hits :=
           scan_rekordbox recs (row_title r) (row_artist r) score_cut in
         let fs_hits :=
           match dir with
           | Some d => scan_files d (row_title r) (row_artist r) score_cut
           | None => []
           end in
         mk_result (row_artist r) (row_title r)
                   (List.length rb_hits) (List.length fs_hits)
                   rb_hits fs_hits)
      items.

End Scanners.

(* sum(p(r) for r in results) over a boolean p *)
Definition count_true {A : Type} (p : A -> bool) (l : list A) : nat :=
  List.length (filter p l).

Definition in_rb (r : result) : bool := (0 <? rb_count r)%nat.
Definition on_fs (r : result) : bool :=
  ((rb_count r =? 0) && (0 <? fs_count r))%nat.
Definition no_match (r : result) : bool :=
  ((rb_count r =? 0) && (fs_count r =? 0))%nat.

Definition rb_ct (results : list result) : nat := count_true in_rb results.
Definition fs_ct (results : list result) : nat := count_true on_fs results.
Definition none_ct (results : list result) : nat := count_true no_match results.

(** The bucket of an item, chosen as the detailed summary colours it. *)
Inductive bucket : Type := MatchInRb | MatchOnFs | NoMatch.

Definition bucket_of (r : result) : bucket :=
  if (0 <? rb_count r)%nat then MatchInRb
  else if (0 <? fs_count r)%nat then MatchOnFs
  else NoMatch.

(** A scorer for the examples: 100 on equal strings and 0 otherwise. *)
Definition exact_ratio (a b : string) : Z :=
  if String.eqb a b then 100%Z else 0%Z.

Definition strobe_record : content :=
  mk_content (Some (VStr "Strobe (Original Mix)"))
             (Some (AObj (Some (VStr "Deadmau5")))).

(* a record whose artist has the name None *)
Definition nameless_record : content :=
  mk_content (Some (VStr "X")) (Some (AObj (Some VNone))).

Definition demo_tree : entry :=
  Dir "music" "/music"
    [ File "cover" "/music/cover";
      Dir "Artist X" "/music/Artist X"
        [ File "Track Y.flac" "/music/Artist X/Track Y.flac";
          File "notes" "/music/Artist X/notes" ];
      Dir "Artist Z" "/music/Artist Z"
        [ File "Track Y.flac" "/music/Artist Z/Track Y.flac";
          File "alias.flac" "/music/Artist X/Track Y.flac" ];
      Dir "live.set" "/music/live.set" [] ].

(** ** Loading the input rows in [main] *)

(** A row of the input file: the values under the keys ['title'] and
    ['artist']; [None] stands for an absent key, which [row.get] reads as
    [None]. *)
Record json_row : Type := mk_json_row {
  j_title : option value;
  j_artist : option value
}.

(* row.get(key) *)
Definition dict_get (v : option value) : value :=
  match v with
  | Some x => x
  | None => VNone
  end.

(** The loop "load & normalize input, skip blank rows". *)
Definition load_items (raw : list json_row) : list row :=
  fold_left
    (fun items r =>
       let rt := Str.strip (or_empty (dict_get (j_title r))) in
       let ra := Str.strip (or_empty (dict_get (j_artist r))) in
       let t := norm rt in
       let a := norm ra in
       if negb (Str.truthy t || Str.truthy a) then items
       else (items ++ [mk_row t a])%list)
    raw [].

(** [main] from the loaded rows to the three counts of the summary. *)
Definition summary (ratio : string -> string -> Z) (recs : list content)
  (dir : option entry) (score_cut : Z) (raw : list json_row)
  : nat * nat * nat :=
  let results := process_items ratio recs dir score_cut (load_items raw) in
  (rb_ct results, fs_ct results, none_ct results).

(** ** Vocabulary of the statements *)

(** A function on strings that only deletes characters: it keeps every
    property of the characters, never lengthens, and changes nothing when it
    deletes nothing. *)
Definition deletion (f : string -> string) : Prop :=
  forall s,
    (forall P, Str.all_chars P s = true -> Str.all_chars P (f s) = true)
    /\ length (f s) <= length s
    /\ (length (f s) = length s -> f s = s).

Definition is_lowered (c : ascii) : bool := Ascii.eqb (Char.lower c) c.

(** The loops of the two stripping passes, before their final [strip]. *)
Definition mix_pass (t : string) : string :=
  fold_left
    (fun t pat =>
       Str.replace (Str.upper pat)
         (Str.replace (Str.title pat) (Str.replace pat t)))
    ORIGINAL_MIX_PATTERNS t.

Definition feat_pass (t : string) : string :=
  fold_left (fun t pat => Re.sub true pat t) FEAT_PATTERNS t.

(** Descending order of scores, and the hits of one score. *)
Definition by_score_desc (a b : hit) : Prop := (score b <= score a)%Z.

Definition has_score (v : Z) (h : hit) : bool := (score h =? v)%Z.

Definition has_path (p : string) (h : hit) : bool :=
  match path h with
  | Some q => String.eqb q p
  | None => false
  end.

(** [subseq k l]: [k] is [l] with some elements left out, in the order of
    [l]. *)
Inductive subseq {A : Type} : list A -> list A -> Prop :=
| subseq_nil : subseq [] []
| subseq_skip x k l : subseq k l -> subseq k (x :: l)
| subseq_take x k l : subseq k l -> subseq (x :: k) (x :: l).

(** [m] is the greatest element of [l], and 0 when [l] is empty. *)
Definition greatest_or_zero (m : Z) (l : list Z) : Prop :=
  Forall (fun x => (x <= m)%Z) l /\ (In m l \/ (l = [] /\ m = 0%Z)).


(** The hits the loop of [scan_files] adds when it starts with the set
    [seen], as a recursive function. *)
Fixpoint kept_hits (token_set_ratio : string -> string -> Z)
  (title artist : string) (score_cut : Z) (seen : list string)
  (paths : list found) : list hit :=
  match paths with
  | [] => []
  | f :: rest =>
      match file_score token_set_ratio title artist score_cut f with
      | Some best_score =>
          if mem (f_resolved f) seen
          then kept_hits token_set_ratio title artist score_cut seen rest
          else file_hit best_score f
               :: kept_hits token_set_ratio title artist score_cut
                    (f_resolved f :: seen) rest
      | None => kept_hits token_set_ratio title artist score_cut seen rest
      end
  end.

(** A character that starts none of the feature patterns and is no white
    space: not a space, an opening parenthesis or a comma. *)
Definition plain (c : ascii) : bool :=
  negb (Char.is_space c) && negb (Ascii.eqb c "(") && negb (Ascii.eqb c ",").

(** A character that is none of the separators of the tokenizer. *)
Definition not_separator (c : ascii) : bool :=
  negb (existsb (Ascii.eqb c) [","; "&"; "/"; ";"]%char).

Definition not_space (c : ascii) : bool := negb (Char.is_space c).

(** The scorer keeps to the range 0..100. *)
Definition in_range (ratio : string -> string -> Z) : Prop :=
  forall a b, (0 <= ratio a b <= 100)%Z.

(** The item a row of the input is loaded as, and the rows that are kept. *)
Definition item_of (r : json_row) : row :=
  mk_row (norm (Str.strip (or_empty (dict_get (j_title r)))))
         (norm (Str.strip (or_empty (dict_get (j_artist r))))).

Definition has_query (it : row) : bool :=
  Str.truthy (row_title it) || Str.truthy (row_artist it).

(** A value that is absent, [None] or made of white space only. *)
Definition blank (v : option value) : bool :=
  Str.all_chars Char.is_space (or_empty (dict_get v)).

(** [clash old w]: the character that follows the first space of [old]
    is not the first character of [w]. *)
Fixpoint clash (old w : string) : bool :=
  match old with
  | EmptyString => false
  | String a old' =>
      if Ascii.eqb a " "
      then match old' with
           | EmptyString => false
           | String c _ =>
               match w with
               | EmptyString => true
               | String d _ => negb (Ascii.eqb c d)
               end
           end
      else clash old' w
  end.

Definition not_newline (c : ascii) : bool := negb (Ascii.eqb c Char.newline).

(** A character that starts none of the first four feature patterns. *)
Definition no_opener (c : ascii) : bool :=
  negb (Ascii.eqb c "(") && negb (Ascii.eqb c ",").

(** [keeps_head u k f]: on a word [u] followed by a space, the keyword [k]
    and a line [y], the function [f] changes the line only. *)
Definition keeps_head (u k : string) (f : string -> string) : Prop :=
  forall y, Str.all_chars not_newline y = true ->
    exists y', Str.all_chars not_newline y' = true
               /\ f (u ++ String " " (k ++ y)) = u ++ String " " (k ++ y').

(** The texts that separate two artists in the examples of the tokenizer:
    a separator character or the word "and", with or without spaces. *)
Definition SEPARATOR_TEXTS : list string :=
  [","; ", "; " , "; "&"; " & "; "/"; " / "; ";"; "; "; " and "; " And ";
   " AND "].

(* the pieces of a split, the first one with [r] before it *)
Definition prepend (r : string) (l : list string) : list string :=
  match l with
  | p :: ps => (r ++ p) :: ps
  | [] => [r]
  end.

Definition total_length (l : list string) : nat :=
  fold_right (fun p n => length p + n) 0 l.

(** * Facts *)

(** ** Strings *)

Lemma lower_char_idem (c : ascii) : Char.lower (Char.lower c) = Char.lower c.
Proof. destruct c as [[] [] [] [] [] [] [] []]; vm_compute; reflexivity. Qed.

Lemma lower_is_lowered (s : string) :
  Str.all_chars is_lowered (Str.lower s) = true.
Proof.
  induction s as [|c s IH]; simpl; [reflexivity|].
  rewrite IH, andb_true_r. unfold is_lowered.
  rewrite lower_char_idem. apply Ascii.eqb_refl.
Qed.

Lemma lower_fixed (s : string) :
  Str.all_chars is_lowered s = true -> Str.lower s = s.
Proof.
  induction s as [|c s IH]; simpl; [reflexivity|].
  intros H. apply andb_true_iff in H. destruct H as [Hc Hs].
  apply Ascii.eqb_eq in Hc. now rewrite Hc, IH.
Qed.

Lemma deletion_compose (f g : string -> string) :
  deletion f -> deletion g -> deletion (fun s => g (f s)).
Proof.
  intros Hf Hg s.
  destruct (Hf s) as (Pf & Lf & Ef), (Hg (f s)) as (Pg & Lg & Eg).
  repeat split.
  - intros P H. auto.
  - lia.
  - intros E. rewrite Eg by lia. apply Ef. lia.
Qed.

Lemma deletion_id : deletion (fun s => s).
Proof. intros s. repeat split; auto. Qed.

Lemma deletion_fold {A : Type} (step : string -> A -> string) (l : list A) :
  (forall a, deletion (fun t => step t a)) ->
  deletion (fun s => fold_left step l s).
Proof.
  intros Hstep. induction l as [|a l IH]; simpl.
  - apply deletion_id.
  - apply (deletion_compose (fun t => step t a) (fun t => fold_left step l t));
      auto.
Qed.

(** When a composition of deletions deletes nothing, neither does its first
    stage. *)
Lemma deletion_first_stage (f g : string -> string) (s : string) :
  deletion f -> deletion g -> g (f s) = s -> f s = s.
Proof.
  intros Hf Hg E.
  destruct (Hf s) as (_ & Lf & Ef), (Hg (f s)) as (_ & Lg & _).
  apply Ef. rewrite E in Lg. lia.
Qed.

Ltac keep_chars P1 :=
  let P := fresh "P" in let H := fresh "H" in
  intros P H; cbn [Str.all_chars] in H; apply andb_true_iff in H; apply P1, H.

Ltac too_short := intros; cbn [length] in *; exfalso; lia.

Lemma replace_from_deletion (old : string) (s : string) (skip : nat) :
  (forall P, Str.all_chars P s = true ->
             Str.all_chars P (Str.replace_from old skip s) = true)
  /\ length (Str.replace_from old skip s) <= length s
  /\ (length (Str.replace_from old skip s) = length s ->
      Str.replace_from old skip s = s).
Proof.
  revert skip. induction s as [|c s IH]; intros skip.
  - simpl. auto.
  - cbn [Str.replace_from]. destruct skip as [|k].
    + destruct (prefix old (String c s)).
      * destruct (IH (Nat.pred (length old))) as (P1 & L1 & _).
        split; [keep_chars P1|]. split; [cbn [length]; lia|too_short].
      * destruct (IH 0) as (P1 & L1 & E1). cbn [length Str.all_chars].
        split; [|split; [lia|]].
        -- intros P H. apply andb_true_iff in H. destruct H as [Hc Hs].
           now rewrite Hc, (P1 P Hs).
        -- intros E. f_equal. apply E1. lia.
    + destruct (IH k) as (P1 & L1 & _).
      split; [keep_chars P1|]. split; [cbn [length]; lia|too_short].
Qed.

Lemma replace_deletion (old : string) : deletion (Str.replace old).
Proof.
  intros s. unfold Str.replace. destruct old.
  - apply deletion_id.
  - apply replace_from_deletion.
Qed.

Lemma sub_from_deletion (ic : bool) (pat : pattern) (s : string)
  (skip : nat) (prev : option ascii) :
  (forall P, Str.all_chars P s = true ->
             Str.all_chars P (Re.sub_from ic pat skip prev s) = true)
  /\ length (Re.sub_from ic pat skip prev s) <= length s
  /\ (length (Re.sub_from ic pat skip prev s) = length s ->
      Re.sub_from ic pat skip prev s = s).
Proof.
  revert skip prev. induction s as [|c s IH]; intros skip prev.
  - simpl. auto.
  - assert (Hdrop : forall k,
      (forall P, Str.all_chars P (String c s) = true ->
                 Str.all_chars P (Re.sub_from ic pat k (Some c) s) = true)
      /\ length (Re.sub_from ic pat k (Some c) s) <= length (String c s)
      /\ (length (Re.sub_from ic pat k (Some c) s) = length (String c s) ->
          Re.sub_from ic pat k (Some c) s = String c s)).
    { intros k. destruct (IH k (Some c)) as (P1 & L1 & _).
      split; [keep_chars P1|]. split; [cbn [length]; lia|too_short]. }
    assert (Hkeep :
      (forall P, Str.all_chars P (String c s) = true ->
         Str.all_chars P (String c (Re.sub_from ic pat 0 (Some c) s)) = true)
      /\ length (String c (Re.sub_from ic pat 0 (Some c) s))
         <= length (String c s)
      /\ (length (String c (Re.sub_from ic pat 0 (Some c) s))
          = length (String c s) ->
          String c (Re.sub_from ic pat 0 (Some c) s) = String c s)).
    { destruct (IH 0 (Some c)) as (P1 & L1 & E1). cbn [length Str.all_chars].
      split; [|split; [lia|]].
      - intros P H. apply andb_true_iff in H. destruct H as [Hc Hs].
        now rewrite Hc, (P1 P Hs).
      - intros E. f_equal. apply E1. lia. }
    cbn [Re.sub_from]. destruct skip as [|k]; [|apply Hdrop].
    destruct (match_pat ic pat prev (String c s)) as [[|n]|];
      [apply Hkeep|apply Hdrop|apply Hkeep].
Qed.

Lemma sub_deletion (ic : bool) (pat : pattern) : deletion (Re.sub ic pat).
Proof. intros s. apply sub_from_deletion. Qed.

Lemma lstrip_deletion : deletion Str.lstrip.
Proof.
  intros s. induction s as [|c s (P1 & L1 & E1)]; [simpl; auto|].
  cbn [Str.lstrip]. destruct (Char.is_space c).
  - split; [keep_chars P1|]. split; [cbn [length]; lia|too_short].
  - auto.
Qed.

Lemma rstrip_deletion : deletion Str.rstrip.
Proof.
  intros s. induction s as [|c s (P1 & L1 & E1)]; [simpl; auto|].
  cbn [Str.rstrip]. destruct (Str.rstrip s) as [|d r] eqn:R.
  - destruct (Char.is_space c).
    + split; [reflexivity|]. split; [cbn [length]; lia|too_short].
    + cbn [length Str.all_chars] in *.
      split; [|split; [lia|]].
      * intros P H. apply andb_true_iff in H. destruct H as [Hc _].
        now rewrite Hc.
      * intros E. f_equal. apply E1. lia.
  - cbn [length Str.all_chars] in *. split; [|split; [lia|]].
    + intros P H. apply andb_true_iff in H. destruct H as [Hc Hs].
      rewrite Hc. apply (P1 P Hs).
    + intros E. f_equal. apply E1. lia.
Qed.

Lemma strip_deletion : deletion Str.strip.
Proof.
  apply (deletion_compose Str.lstrip Str.rstrip).
  - apply lstrip_deletion.
  - apply rstrip_deletion.
Qed.

Lemma rstrip_cons (c : ascii) (s : string) :
  Str.rstrip (String c s)
  = match Str.rstrip s with
    | EmptyString =>
        if Char.is_space c then EmptyString else String c EmptyString
    | r => String c r
    end.
Proof. reflexivity. Qed.

Lemma rstrip_idem (s : string) : Str.rstrip (Str.rstrip s) = Str.rstrip s.
Proof.
  induction s as [|c s IH]; [reflexivity|].
  rewrite rstrip_cons. destruct (Str.rstrip s) as [|d r] eqn:R.
  - destruct (Char.is_space c) eqn:Sp; [reflexivity|].
    rewrite rstrip_cons. simpl. now rewrite Sp.
  - rewrite rstrip_cons, IH. reflexivity.
Qed.

Lemma lstrip_head (s : string) :
  match Str.lstrip s with
  | EmptyString => True
  | String c _ => Char.is_space c = false
  end.
Proof.
  induction s as [|c s IH]; simpl; [exact I|].
  destruct (Char.is_space c) eqn:Sp; [exact IH|exact Sp].
Qed.

Lemma lstrip_rstrip_fixed (s : string) :
  match s with
  | EmptyString => True
  | String c _ => Char.is_space c = false
  end ->
  Str.lstrip (Str.rstrip s) = Str.rstrip s.
Proof.
  destruct s as [|c s]; [reflexivity|]. intros Sp.
  rewrite rstrip_cons. destruct (Str.rstrip s); rewrite ?Sp; simpl;
    now rewrite Sp.
Qed.

Lemma strip_idem (s : string) : Str.strip (Str.strip s) = Str.strip s.
Proof.
  unfold Str.strip.
  rewrite (lstrip_rstrip_fixed (Str.lstrip s) (lstrip_head s)).
  apply rstrip_idem.
Qed.

(** ** The normaliser *)

Lemma strip_mix_deletion : deletion (fun t : string => strip_mix_annotations t).
Proof.
  apply (deletion_compose mix_pass Str.strip); [|apply strip_deletion].
  apply deletion_fold. intros pat.
  apply (deletion_compose
           (fun t => Str.replace (Str.title pat) (Str.replace pat t))
           (Str.replace (Str.upper pat))); [|apply replace_deletion].
  apply (deletion_compose (Str.replace pat) (Str.replace (Str.title pat)));
    apply replace_deletion.
Qed.

Lemma strip_features_deletion : deletion (fun t : string => strip_features t).
Proof.
  apply (deletion_compose feat_pass Str.strip); [|apply strip_deletion].
  apply deletion_fold. intros pat. apply sub_deletion.
Qed.

Lemma norm_lowered (s : value) : Str.lower (norm s) = norm s.
Proof.
  apply lower_fixed. unfold norm.
  apply strip_deletion.
  apply (strip_features_deletion (strip_mix_annotations _)).
  apply (strip_mix_deletion (Str.lower _)).
  apply lower_is_lowered.
Qed.

Lemma norm_stripped (s : value) : Str.strip (norm s) = norm s.
Proof. unfold norm. apply strip_idem. Qed.

Lemma norm_of_norm (s : value) :
  norm (norm s)
  = Str.strip (strip_features (strip_mix_annotations (norm s))).
Proof.
  unfold norm at 1. cbn [or_empty]. now rewrite norm_lowered.
Qed.

(** C3 (as amended): one pass of [norm] is a fixed point of [norm] exactly
    when neither stripping pass finds anything left to remove in it;
    idempotence holds for those strings and for no others. *)
Theorem norm_idempotent_iff_clean (s : value) :
  norm (norm s) = norm s
  <-> strip_mix_annotations (norm s) = norm s
      /\ strip_features (norm s) = norm s.
Proof.
  rewrite norm_of_norm. split.
  - intros E.
    assert (Hm : strip_mix_annotations (norm s) = norm s).
    { apply (deletion_first_stage
               (fun t : string => strip_mix_annotations t)
               (fun t : string => Str.strip (strip_features t)));
        [apply strip_mix_deletion| |exact E].
      apply (deletion_compose (fun t : string => strip_features t) Str.strip);
        [apply strip_features_deletion|apply strip_deletion]. }
    split; [exact Hm|].
    rewrite Hm in E.
    apply (deletion_first_stage (fun t : string => strip_features t) Str.strip);
      [apply strip_features_deletion|apply strip_deletion|exact E].
  - intros [Hm Hf]. rewrite Hm, Hf. apply norm_stripped.
Qed.

(** C3 (counterexample): deleting the inner annotation joins its
    neighbours into a new one, which a second pass removes. *)
Lemma norm_not_idempotent :
  norm (norm "original original mixmix") <> norm "original original mixmix"
  /\ norm (norm "(f(ft x)t y)") <> norm "(f(ft x)t y)".
Proof. split; vm_compute; discriminate. Qed.

(** ** The final sort *)

Lemma insert_by_score_perm (h : hit) (l : list hit) :
  Permutation (insert_by_score h l) (h :: l).
Proof.
  induction l as [|y l IH]; simpl; [reflexivity|].
  destruct (score h <? score y)%Z; [|reflexivity].
  rewrite IH. apply perm_swap.
Qed.

Lemma sorted_by_score_perm (l : list hit) : Permutation (sorted_by_score l) l.
Proof.
  induction l as [|h l IH]; simpl; [reflexivity|].
  rewrite insert_by_score_perm. now constructor.
Qed.

Lemma sorted_by_score_In (l : list hit) (h : hit) :
  In h (sorted_by_score l) <-> In h l.
Proof.
  split; apply Permutation_in;
    [|symmetry]; apply sorted_by_score_perm.
Qed.

Lemma insert_by_score_sorted (h : hit) (l : list hit) :
  StronglySorted by_score_desc l ->
  StronglySorted by_score_desc (insert_by_score h l).
Proof.
  induction l as [|y l IH]; intros Hs; simpl.
  - repeat constructor.
  - apply StronglySorted_inv in Hs. destruct Hs as [Hl Hy].
    destruct (score h <? score y)%Z eqn:Lt.
    + apply Z.ltb_lt in Lt. constructor; [now apply IH|].
      apply (Permutation_Forall (Permutation_sym (insert_by_score_perm h l))).
      constructor; [unfold by_score_desc; lia|exact Hy].
    + apply Z.ltb_ge in Lt. constructor; [now constructor|].
      constructor; [exact Lt|].
      eapply Forall_impl; [|exact Hy]. unfold by_score_desc. intros; lia.
Qed.

Lemma sorted_by_score_sorted (l : list hit) :
  StronglySorted by_score_desc (sorted_by_score l).
Proof.
  induction l as [|h l IH]; simpl; [constructor|].
  now apply insert_by_score_sorted.
Qed.

Lemma insert_by_score_stable (v : Z) (h : hit) (l : list hit) :
  filter (has_score v) (insert_by_score h l) = filter (has_score v) (h :: l).
Proof.
  induction l as [|y l IH]; [reflexivity|].
  cbn [insert_by_score]. destruct (score h <? score y)%Z eqn:Lt; [|reflexivity].
  apply Z.ltb_lt in Lt. cbn [filter] in *. rewrite IH. unfold has_score.
  destruct (score h =? v)%Z eqn:Eh; [|reflexivity].
  apply Z.eqb_eq in Eh.
  destruct (score y =? v)%Z eqn:Ey; [|reflexivity].
  apply Z.eqb_eq in Ey. lia.
Qed.

Lemma sorted_by_score_stable (v : Z) (l : list hit) :
  filter (has_score v) (sorted_by_score l) = filter (has_score v) l.
Proof.
  induction l as [|h l IH]; [reflexivity|].
  cbn [sorted_by_score]. rewrite insert_by_score_stable.
  cbn [filter]. now rewrite IH.
Qed.

(** ** Maxima *)

Lemma fold_max_bounds (l : list Z) (x : Z) :
  (x <= fold_left Z.max l x)%Z
  /\ Forall (fun y => (y <= fold_left Z.max l x)%Z) l
  /\ (fold_left Z.max l x = x \/ In (fold_left Z.max l x) l).
Proof.
  revert x. induction l as [|y l IH]; intros x; simpl.
  - repeat split; [lia|constructor|now left].
  - destruct (IH (Z.max x y)) as (Hx & Hall & Hin).
    repeat split; [lia| |].
    + constructor; [lia|exact Hall].
    + destruct Hin as [E|Hin]; [|now right; right].
      destruct (Z.max_spec x y) as [[_ M]|[_ M]]; rewrite M in *.
      * right. left. now rewrite E.
      * now left.
Qed.

Lemma max_or_zero_greatest (l : list Z) : greatest_or_zero (max_or_zero l) l.
Proof.
  destruct l as [|x l]; simpl.
  - split; [constructor|now right].
  - destruct (fold_max_bounds l x) as (Hx & Hall & Hin).
    split; [now constructor|]. left.
    destruct Hin as [E|Hin]; [left; now rewrite E|now right].
Qed.

Lemma best_over_fold (f : string -> string -> Z) (ins dbs : list string) :
  best_over f ins dbs
  = fold_left Z.max (map (fun p => f (fst p) (snd p)) (list_prod ins dbs)) 0%Z.
Proof.
  unfold best_over. generalize 0%Z.
  induction ins as [|a ins IH]; intros z; simpl; [reflexivity|].
  rewrite IH, map_app, fold_left_app, map_map. simpl. f_equal.
  clear. revert z. induction dbs as [|b dbs IH]; intros z; simpl; auto.
Qed.

(** With a scorer that is never negative, the value the nested loops reach
    from 0 is the greatest score over the pairs. *)
Lemma best_over_greatest (f : string -> string -> Z) (ins dbs : list string) :
  (forall a b, 0 <= f a b)%Z ->
  greatest_or_zero (best_over f ins dbs)
    (map (fun p => f (fst p) (snd p)) (list_prod ins dbs)).
Proof.
  intros Hpos. rewrite best_over_fold.
  set (l := map _ _).
  assert (Hl : Forall (fun y => 0 <= y)%Z l).
  { apply Forall_forall. intros y Hy. apply in_map_iff in Hy.
    destruct Hy as (p & <- & _). apply Hpos. }
  destruct (fold_max_bounds l 0) as (H0 & Hall & Hin).
  split; [exact Hall|].
  destruct Hin as [E|Hin]; [|now left].
  destruct l as [|y l']; [right; split; [reflexivity|exact E]|].
  left. left. rewrite E.
  apply Forall_inv in Hl. apply Forall_inv in Hall. rewrite E in Hall. lia.
Qed.

(** ** Examples of the tokenizer and the normaliser *)

Example norm_strobe : norm "Strobe (Original Mix)" = "strobe".
Proof. reflexivity. Qed.

Example norm_song_feat : norm "Song feat. Artist" = "song".
Proof. reflexivity. Qed.

Example norm_none : norm VNone = "".
Proof. reflexivity. Qed.

(** C5 (as amended): the tokenizer splits "A & B" and "A, B and C" into
    their artists and returns the empty list on the empty string; the
    one-element list holding the empty string comes from its callers: the
    query tokens of a scanner are that list when the query artist is empty
    and the tokens of the artist otherwise, and the tokens of a record in the
    database scanner are that list whenever the record's normalised artist
    yields no token, and its tokens otherwise; the score of such a record is
    then taken against the empty string. *)
Theorem split_artists_examples :
  split_artists "A & B" = ["A"; "B"]
  /\ split_artists "A, B and C" = ["A"; "B"; "C"]
  /\ split_artists "" = []
  /\ input_artists_of "" = [""]
  /\ db_artists_of "" = [""]
  /\ (forall artist, artist <> "" ->
                     input_artists_of artist = split_artists artist)
  /\ (forall a_val, split_artists a_val = [] -> db_artists_of a_val = [""])
  /\ (forall a_val, split_artists a_val <> [] ->
                    db_artists_of a_val = split_artists a_val)
  /\ (forall (ratio : string -> string -> Z) title artist c,
         title <> "" -> artist <> "" ->
         split_artists (norm (raw_artist_of c)) = [] ->
         record_score ratio title artist c
         = fold_left
             (fun best in_a =>
                Z.max best (ratio (title ++ "::" ++ in_a)
                                  (norm (raw_title_of c) ++ "::" ++ "")))
             (split_artists artist) 0%Z)
  /\ (forall (ratio : string -> string -> Z) artist c,
         artist <> "" ->
         split_artists (norm (raw_artist_of c)) = [] ->
         record_score ratio "" artist c
         = fold_left (fun best in_a => Z.max best (ratio in_a ""))
             (split_artists artist) 0%Z).
Proof.
  assert (Htruthy : forall s, s <> "" -> Str.truthy s = true).
  { intros s Hs. destruct s; [congruence|reflexivity]. }
  repeat (split; [reflexivity|]).
  split; [|split; [|split; [|split]]].
  - intros artist Ha. unfold input_artists_of. now rewrite (Htruthy _ Ha).
  - intros a_val Hn. unfold db_artists_of. now rewrite Hn.
  - intros a_val Hn. unfold db_artists_of.
    destruct (split_artists a_val); [congruence|reflexivity].
  - intros ratio title artist c Ht Ha Hn.
    unfold record_score, input_artists_of, db_artists_of, best_over.
    now rewrite (Htruthy _ Ht), (Htruthy _ Ha), Hn.
  - intros ratio artist c Ha Hn.
    unfold record_score, input_artists_of, db_artists_of, best_over.
    now rewrite (Htruthy _ Ha), Hn.
Qed.

(** C5 (counterexample): on the empty string the tokenizer does not return
    the list holding one empty string. *)
Lemma split_artists_empty_is_not_singleton : split_artists "" <> [""].
Proof. vm_compute. discriminate. Qed.

(** ** The database scanner *)

Lemma fold_append_filter {A B : Type} (p : A -> bool) (g : A -> B)
  (l : list A) (acc : list B) :
  fold_left (fun results c => if p c then results ++ [g c] else results)%list
    l acc
  = (acc ++ map g (filter p l))%list.
Proof.
  revert acc. induction l as [|c l IH]; intros acc; simpl.
  - now rewrite app_nil_r.
  - rewrite IH. destruct (p c); [|reflexivity].
    simpl. now rewrite <- app_assoc.
Qed.

Lemma truthy_iff (s : string) : Str.truthy s = true <-> s <> "".
Proof. destruct s; simpl; split; congruence. Qed.

Section ScannerFacts.

Variable ratio : string -> string -> Z.

Lemma rekordbox_results_filter contents title artist score_cut :
  rekordbox_results ratio contents title artist score_cut
  = map (record_hit ratio title artist)
      (filter (fun c => (score_cut <=? record_score ratio title artist c)%Z)
         contents).
Proof. unfold rekordbox_results. now rewrite fold_append_filter. Qed.

(** C2: with a title and an artist, and a scorer that is never negative,
    the score of a record is the greatest similarity of the composite
    strings "title::qa" and "dbtitle::da" over the pairs of a query artist
    token and a database artist token, the database artist tokens being the
    tokens of the record's normalised artist, or the empty string alone when
    there is none; the records kept, each labelled "rawartist - rawtitle"
    from its own fields, are those whose score reaches the threshold. *)
Theorem scan_rekordbox_title_and_artist contents title artist score_cut :
  (forall a b, 0 <= ratio a b)%Z ->
  title <> "" -> artist <> "" ->
  (forall c,
      greatest_or_zero (record_score ratio title artist c)
        (map (fun p => ratio (title ++ "::" ++ fst p)
                             (norm (raw_title_of c) ++ "::" ++ snd p))
           (list_prod (split_artists artist)
              match split_artists (norm (raw_artist_of c)) with
              | [] => [""]
              | l => l
              end)))
  /\ Permutation (scan_rekordbox ratio contents title artist score_cut)
       (map (fun c => mk_hit (record_score ratio title artist c)
                        (fmt (raw_artist_of c) ++ " - " ++ raw_title_of c)
                        None)
          (filter
             (fun c => (score_cut <=? record_score ratio title artist c)%Z)
             contents)).
Proof.
  intros Hpos Ht Ha. apply truthy_iff in Ht, Ha. split.
  - intros c. unfold record_score, input_artists_of.
    rewrite Ht, Ha. cbn [andb].
    apply (best_over_greatest
             (fun in_a db_a =>
                ratio (title ++ "::" ++ in_a)
                  (norm (raw_title_of c) ++ "::" ++ db_a))).
    intros a b. apply Hpos.
  - unfold scan_rekordbox. rewrite sorted_by_score_perm.
    now rewrite rekordbox_results_filter.
Qed.

(** ** The loop of the filesystem scanner *)

Lemma mem_cons p q seen :
  mem p (q :: seen) = (String.eqb p q || mem p seen)%bool.
Proof. reflexivity. Qed.

Lemma mem_true_false p q seen :
  mem p seen = true -> mem q seen = false -> p <> q.
Proof. intros Hp Hq E. rewrite E in Hp. congruence. Qed.

Lemma visit_fold title artist score_cut paths st :
  fst (fold_left (visit ratio title artist score_cut) paths st)
  = (fst st ++ kept_hits ratio title artist score_cut (snd st) paths)%list.
Proof.
  revert st. induction paths as [|f paths IH]; intros st; simpl.
  - now rewrite app_nil_r.
  - rewrite IH. unfold visit.
    destruct (file_score ratio title artist score_cut f) as [b|];
      [|reflexivity].
    destruct (mem (f_resolved f) (snd st)); [reflexivity|].
    simpl. now rewrite <- app_assoc.
Qed.

Lemma files_results_kept paths title artist score_cut :
  files_results ratio paths title artist score_cut
  = kept_hits ratio title artist score_cut [] paths.
Proof. unfold files_results. now rewrite visit_fold. Qed.

(** A hit is added for the first path that passes among those that resolve
    to the same file, and for no other. *)
Lemma kept_hits_In title artist score_cut paths seen h :
  In h (kept_hits ratio title artist score_cut seen paths)
  <-> exists pre f post b,
        paths = (pre ++ f :: post)%list
        /\ file_score ratio title artist score_cut f = Some b
        /\ h = file_hit b f
        /\ mem (f_resolved f) seen = false
        /\ forall g, In g pre ->
                     file_score ratio title artist score_cut g <> None ->
                     f_resolved g <> f_resolved f.
Proof.
  revert seen. induction paths as [|f0 paths IH]; intros seen.
  - simpl. split; [tauto|].
    intros (pre & f & post & b & E & _). now destruct pre.
  - cbn [kept_hits]. split.
    + intros Hin.
      assert (Hrest : forall seen',
        In h (kept_hits ratio title artist score_cut seen' paths) ->
        (forall q, mem q seen' = false -> mem q seen = false) ->
        (forall q, mem q seen' = false ->
           file_score ratio title artist score_cut f0 <> None ->
           f_resolved f0 <> q) ->
        exists pre f post b,
          (f0 :: paths = pre ++ f :: post)%list
          /\ file_score ratio title artist score_cut f = Some b
          /\ h = file_hit b f
          /\ mem (f_resolved f) seen = false
          /\ forall g, In g pre ->
               file_score ratio title artist score_cut g <> None ->
               f_resolved g <> f_resolved f).
      { intros seen' Hin' Hsub Hnew.
        apply IH in Hin'.
        destruct Hin' as (pre & f & post & b & E & Hb & Hh & Hm & Hpre).
        exists (f0 :: pre), f, post, b. rewrite E.
        repeat split; auto.
        intros g [<-|Hg]; auto. }
      destruct (file_score ratio title artist score_cut f0) as [b0|] eqn:S0.
      * destruct (mem (f_resolved f0) seen) eqn:M0.
        -- apply (Hrest seen Hin); auto.
           intros q Hq _. now apply (mem_true_false _ _ seen).
        -- destruct Hin as [<-|Hin].
           ++ exists [], f0, paths, b0. repeat split; auto.
           ++ apply (Hrest (f_resolved f0 :: seen) Hin).
              ** intros q Hq. rewrite mem_cons in Hq.
                 now apply orb_false_iff in Hq.
              ** intros q Hq _ E. rewrite mem_cons in Hq.
                 apply orb_false_iff in Hq. destruct Hq as [Hq _].
                 apply String.eqb_neq in Hq. congruence.
      * apply (Hrest seen Hin); auto.
    + intros (pre & f & post & b & E & Hb & Hh & Hm & Hpre).
      destruct pre as [|g pre]; simpl in E; injection E as -> ->.
      * rewrite Hb, Hm. now left.
      * assert (Hpre' : forall g', In g' pre ->
                  file_score ratio title artist score_cut g' <> None ->
                  f_resolved g' <> f_resolved f).
        { intros g' Hg'. apply Hpre. now right. }
        destruct (file_score ratio title artist score_cut g) as [b0|] eqn:S0.
        -- assert (Hg : f_resolved g <> f_resolved f).
           { apply Hpre; [now left|congruence]. }
           destruct (mem (f_resolved g) seen).
           ++ apply IH. exists pre, f, post, b. auto.
           ++ right. apply IH. exists pre, f, post, b.
              repeat split; auto.
              rewrite mem_cons, Hm, orb_false_r.
              apply String.eqb_neq. congruence.
        -- apply IH. exists pre, f, post, b. auto.
Qed.

(** Every path that passes has a hit for its file, unless the file was
    seen before the loop started. *)
Lemma kept_hits_cover title artist score_cut paths seen f :
  In f paths ->
  file_score ratio title artist score_cut f <> None ->
  mem (f_resolved f) seen = true
  \/ exists h, In h (kept_hits ratio title artist score_cut seen paths)
               /\ path h = Some (f_resolved f).
Proof.
  revert seen. induction paths as [|f0 paths IH]; intros seen Hin Hok;
    [contradiction|].
  cbn [kept_hits]. destruct Hin as [->|Hin].
  - destruct (file_score ratio title artist score_cut f) as [b|];
      [|congruence].
    destruct (mem (f_resolved f) seen) eqn:M; [now left|].
    right. eexists. split; [now left|reflexivity].
  - destruct (file_score ratio title artist score_cut f0) as [b0|];
      [|now apply IH].
    destruct (mem (f_resolved f0) seen) eqn:M0; [now apply IH|].
    destruct (IH (f_resolved f0 :: seen) Hin Hok) as [Hm|(h & Hh & Hp)].
    + rewrite mem_cons in Hm. apply orb_true_iff in Hm.
      destruct Hm as [E|Hm]; [|now left].
      apply String.eqb_eq in E. right.
      eexists. split; [now left|]. simpl. now rewrite E.
    + right. exists h. split; [now right|exact Hp].
Qed.

(** The hits added carry pairwise different paths, none of them seen
    before. *)
Lemma kept_hits_fresh title artist score_cut paths seen :
  NoDup (map path (kept_hits ratio title artist score_cut seen paths))
  /\ forall h, In h (kept_hits ratio title artist score_cut seen paths) ->
               exists p, path h = Some p /\ mem p seen = false.
Proof.
  revert seen. induction paths as [|f0 paths IH]; intros seen.
  - simpl. split; [constructor|contradiction].
  - cbn [kept_hits].
    destruct (file_score ratio title artist score_cut f0) as [b0|];
      [|apply IH].
    destruct (mem (f_resolved f0) seen) eqn:M0; [apply IH|].
    destruct (IH (f_resolved f0 :: seen)) as [Hnd Hfresh]. split.
    + cbn [map]. constructor; [|exact Hnd].
      intros Hin. apply in_map_iff in Hin. destruct Hin as (h & Hp & Hh).
      destruct (Hfresh h Hh) as (p & Hp' & Hm).
      rewrite mem_cons in Hm. apply orb_false_iff in Hm.
      destruct Hm as [Hm _]. apply String.eqb_neq in Hm.
      simpl in Hp. congruence.
    + intros h [<-|Hh].
      * exists (f_resolved f0). auto.
      * destruct (Hfresh h Hh) as (p & Hp & Hm). exists p.
        rewrite mem_cons in Hm. apply orb_false_iff in Hm. tauto.
Qed.

(** The hits are added in the order of the paths. *)
Lemma kept_hits_in_order title artist score_cut paths seen :
  exists kept,
    subseq kept paths
    /\ Forall2 (fun f h =>
                  exists b, file_score ratio title artist score_cut f = Some b
                            /\ h = file_hit b f)
         kept (kept_hits ratio title artist score_cut seen paths).
Proof.
  revert seen. induction paths as [|f0 paths IH]; intros seen.
  - exists []. split; constructor.
  - cbn [kept_hits].
    assert (Hskip : forall seen',
      exists kept,
        subseq kept (f0 :: paths)
        /\ Forall2 (fun f h =>
                  exists b, file_score ratio title artist score_cut f = Some b
                            /\ h = file_hit b f)
             kept (kept_hits ratio title artist score_cut seen' paths)).
    { intros seen'. destruct (IH seen') as (kept & Hs & Hf).
      exists kept. split; [now constructor|exact Hf]. }
    destruct (file_score ratio title artist score_cut f0) as [b0|] eqn:S0;
      [|apply Hskip].
    destruct (mem (f_resolved f0) seen); [apply Hskip|].
    destruct (IH (f_resolved f0 :: seen)) as (kept & Hs & Hf).
    exists (f0 :: kept). split; [now constructor|].
    constructor; [|exact Hf]. now exists b0.
Qed.

Lemma file_score_both title artist score_cut f :
  title <> "" -> artist <> "" ->
  file_score ratio title artist score_cut f
  = if ((score_cut <=? title_score ratio title f)
        && (score_cut <=? artist_score ratio artist f))%Z
    then Some (Z.min (title_score ratio title f)
                     (artist_score ratio artist f))
    else None.
Proof.
  intros Ht Ha. apply truthy_iff in Ht, Ha.
  unfold file_score. now rewrite Ht, Ha.
Qed.

Lemma file_score_both_some title artist score_cut f b :
  title <> "" -> artist <> "" ->
  file_score ratio title artist score_cut f = Some b
  <-> (score_cut <= title_score ratio title f)%Z
      /\ (score_cut <= artist_score ratio artist f)%Z
      /\ b = Z.min (title_score ratio title f) (artist_score ratio artist f).
Proof.
  intros Ht Ha. rewrite file_score_both by assumption.
  destruct (score_cut <=? title_score ratio title f)%Z eqn:T;
    destruct (score_cut <=? artist_score ratio artist f)%Z eqn:A; cbn [andb];
    rewrite ?Z.leb_le, ?Z.leb_gt in *;
    (split; [intros E; try discriminate; injection E as <-; auto
            |intros (H1 & H2 & H3); try lia; now subst]).
Qed.

(** C1: with a title and an artist, the artist score of a path is the
    greatest score over the pairs of a token of a normalised ancestor
    directory name and a query artist token (0 without pairs), and its title
    score is the score of the title against the normalised stem of the file
    name; the loop keeps a path exactly when both scores reach the threshold;
    the hits returned are those of the kept paths, one per file, each with
    the smaller of the two scores as its score, the file name as its label
    and the resolved path as its path; a path whose artist score is below the
    threshold is not kept, whatever its title score. *)
Theorem scan_files_title_and_artist basepath title artist score_cut :
  title <> "" -> artist <> "" ->
  (forall f,
      greatest_or_zero (artist_score ratio artist f)
        (flat_map
           (fun d : string =>
              flat_map
                (fun db_a => map (fun in_a => ratio in_a db_a)
                               (split_artists artist))
                (split_artists (norm d)))
           (rel_dirs f)))
  /\ (forall f,
         file_score ratio title artist score_cut f
         = if ((score_cut <=? ratio title (norm (stem (f_name f))))
               && (score_cut <=? artist_score ratio artist f))%Z
           then Some (Z.min (ratio title (norm (stem (f_name f))))
                            (artist_score ratio artist f))
           else None)
  /\ (forall h,
         In h (scan_files ratio basepath title artist score_cut)
         <-> exists pre f post,
               rglob basepath = (pre ++ f :: post)%list
               /\ (score_cut <= ratio title (norm (stem (f_name f))))%Z
               /\ (score_cut <= artist_score ratio artist f)%Z
               /\ h = mk_hit (Z.min (ratio title (norm (stem (f_name f))))
                                    (artist_score ratio artist f))
                             (f_name f) (Some (f_resolved f))
               /\ forall g, In g pre ->
                    (score_cut <= ratio title (norm (stem (f_name g))))%Z ->
                    (score_cut <= artist_score ratio artist g)%Z ->
                    f_resolved g <> f_resolved f)
  /\ (forall p,
         (forall f, In f (rglob basepath) -> f_resolved f = p ->
                    (artist_score ratio artist f < score_cut)%Z) ->
         forall h, In h (scan_files ratio basepath title artist score_cut) ->
                   path h <> Some p).
Proof.
  intros Ht Ha.
  assert (Hnamed :
    (forall f,
        greatest_or_zero (artist_score ratio artist f)
          (flat_map
             (fun d : string =>
                flat_map
                  (fun db_a => map (fun in_a => ratio in_a db_a)
                                 (split_artists artist))
                  (split_artists (norm d)))
             (rel_dirs f)))
    /\ (forall f,
           file_score ratio title artist score_cut f
           = if ((score_cut <=? title_score ratio title f)
                 && (score_cut <=? artist_score ratio artist f))%Z
             then Some (Z.min (title_score ratio title f)
                              (artist_score ratio artist f))
             else None)
    /\ (forall h,
           In h (scan_files ratio basepath title artist score_cut)
           <-> exists pre f post,
                 rglob basepath = (pre ++ f :: post)%list
                 /\ (score_cut <= title_score ratio title f)%Z
                 /\ (score_cut <= artist_score ratio artist f)%Z
                 /\ h = file_hit (Z.min (title_score ratio title f)
                                        (artist_score ratio artist f)) f
                 /\ forall g, In g pre ->
                      (score_cut <= title_score ratio title g)%Z ->
                      (score_cut <= artist_score ratio artist g)%Z ->
                      f_resolved g <> f_resolved f)
    /\ (forall p,
           (forall f, In f (rglob basepath) -> f_resolved f = p ->
                      (artist_score ratio artist f < score_cut)%Z) ->
           forall h, In h (scan_files ratio basepath title artist score_cut) ->
                     path h <> Some p)).
  {
    assert (Hmem : forall h,
      In h (scan_files ratio basepath title artist score_cut)
      <-> exists pre f post,
            rglob basepath = (pre ++ f :: post)%list
            /\ (score_cut <= title_score ratio title f)%Z
            /\ (score_cut <= artist_score ratio artist f)%Z
            /\ h = file_hit (Z.min (title_score ratio title f)
                                   (artist_score ratio artist f)) f
            /\ forall g, In g pre ->
                 (score_cut <= title_score ratio title g)%Z ->
                 (score_cut <= artist_score ratio artist g)%Z ->
                 f_resolved g <> f_resolved f).
    { intros h. unfold scan_files.
      rewrite sorted_by_score_In, files_results_kept, kept_hits_In. split.
      - intros (pre & f & post & b & E & Hb & Hh & _ & Hpre).
        apply file_score_both_some in Hb; [|assumption..].
        destruct Hb as (H1 & H2 & ->).
        exists pre, f, post. repeat split; auto.
        intros g Hg G1 G2. apply Hpre; [exact Hg|].
        rewrite file_score_both by assumption.
        apply Z.leb_le in G1, G2. now rewrite G1, G2.
      - intros (pre & f & post & E & H1 & H2 & Hh & Hpre).
        exists pre, f, post,
          (Z.min (title_score ratio title f) (artist_score ratio artist f)).
        repeat split; auto.
        + now apply file_score_both_some.
        + intros g Hg Hok.
          destruct (file_score ratio title artist score_cut g) as [b|] eqn:S;
            [|congruence].
          apply file_score_both_some in S; [|assumption..].
          apply Hpre; tauto. }
    split; [|split; [|split]].
    - intros f. unfold artist_score, a_scores, input_artists_of.
      apply truthy_iff in Ha. rewrite Ha. apply max_or_zero_greatest.
    - intros f. now apply file_score_both.
    - exact Hmem.
    - intros p Hlow h Hh Hp. apply Hmem in Hh.
      destruct Hh as (pre & f & post & E & _ & H2 & -> & _).
      simpl in Hp. injection Hp as Hp.
      assert (Hin : In f (rglob basepath)).
      { rewrite E. apply in_elt. }
      specialize (Hlow f Hin Hp). lia.
  }
  exact Hnamed.
Qed.

(** C8: both scanners return their hits by descending score, and the hits
    of one score come in the order in which the loop met them: the order of
    the records for the database scanner, the order of the traversal for
    the filesystem scanner. *)
Theorem scan_results_sorted_stable contents basepath title artist score_cut :
  StronglySorted by_score_desc
    (scan_rekordbox ratio contents title artist score_cut)
  /\ StronglySorted by_score_desc
       (scan_files ratio basepath title artist score_cut)
  /\ (forall v,
         filter (has_score v)
           (scan_rekordbox ratio contents title artist score_cut)
         = filter (has_score v)
             (map (record_hit ratio title artist)
                (filter
                   (fun c =>
                      (score_cut <=? record_score ratio title artist c)%Z)
                   contents)))
  /\ exists kept hits,
       subseq kept (rglob basepath)
       /\ Forall2 (fun f h =>
                     exists b,
                       file_score ratio title artist score_cut f = Some b
                       /\ h = file_hit b f)
            kept hits
       /\ forall v,
            filter (has_score v)
              (scan_files ratio basepath title artist score_cut)
            = filter (has_score v) hits.
Proof.
  split; [apply sorted_by_score_sorted|].
  split; [apply sorted_by_score_sorted|]. split.
  - intros v. unfold scan_rekordbox.
    now rewrite sorted_by_score_stable, rekordbox_results_filter.
  - destruct (kept_hits_in_order title artist score_cut (rglob basepath) [])
      as (kept & Hs & Hf).
    exists kept, (kept_hits ratio title artist score_cut [] (rglob basepath)).
    repeat split; auto.
    intros v. unfold scan_files.
    now rewrite sorted_by_score_stable, files_results_kept.
Qed.

Lemma paths_once (l : list hit) (h : hit) (p : string) :
  NoDup (map path l) -> In h l -> path h = Some p ->
  List.length (filter (has_path p) l) = 1.
Proof.
  assert (Hnone : forall l',
    ~ In (Some p) (map path l') -> filter (has_path p) l' = []).
  { induction l' as [|y l' IH]; intros Hn; [reflexivity|].
    cbn [filter]. unfold has_path at 1.
    destruct (path y) as [q|] eqn:Py.
    - destruct (String.eqb q p) eqn:E.
      + apply String.eqb_eq in E. subst q. exfalso. apply Hn.
        simpl. now left.
      + apply IH. intros H. apply Hn. simpl. now right.
    - apply IH. intros H. apply Hn. simpl. now right. }
  induction l as [|x l IH]; intros Hnd Hin Hp; [contradiction|].
  cbn [map] in Hnd. apply NoDup_cons_iff in Hnd. destruct Hnd as [Hx Hnd].
  cbn [filter]. destruct Hin as [->|Hin].
  - unfold has_path at 1. rewrite Hp, String.eqb_refl.
    rewrite Hnone; [reflexivity|]. now rewrite <- Hp.
  - unfold has_path at 1. destruct (path x) as [q|] eqn:Px; [|now apply IH].
    destruct (String.eqb q p) eqn:E; [|now apply IH].
    apply String.eqb_eq in E. subst q. exfalso. apply Hx.
    rewrite <- Hp. now apply in_map.
Qed.

(** C9: no two hits of the filesystem scanner carry the same resolved
    path, and a file with a path that passes, however many paths lead to
    it, has exactly one hit. *)
Theorem scan_files_one_hit_per_file basepath title artist score_cut :
  NoDup (map path (scan_files ratio basepath title artist score_cut))
  /\ forall f,
       In f (rglob basepath) ->
       file_score ratio title artist score_cut f <> None ->
       List.length
         (filter (has_path (f_resolved f))
            (scan_files ratio basepath title artist score_cut)) = 1.
Proof.
  assert (Hnd :
    NoDup (map path (scan_files ratio basepath title artist score_cut))).
  { unfold scan_files. rewrite files_results_kept.
    eapply Permutation_NoDup;
      [apply Permutation_map, Permutation_sym, sorted_by_score_perm|].
    apply kept_hits_fresh. }
  split; [exact Hnd|].
  intros f Hin Hok.
  destruct (kept_hits_cover title artist score_cut (rglob basepath) [] f
              Hin Hok) as [Hm|(h & Hh & Hp)]; [discriminate|].
  apply (paths_once _ h); [exact Hnd| |exact Hp].
  unfold scan_files. now rewrite sorted_by_score_In, files_results_kept.
Qed.

Lemma kept_hits_none title artist score_cut paths seen :
  (forall f, file_score ratio title artist score_cut f = None) ->
  kept_hits ratio title artist score_cut seen paths = [].
Proof.
  intros Hn. induction paths as [|f paths IH]; [reflexivity|].
  cbn [kept_hits]. now rewrite Hn.
Qed.

(** C6 (the code at the failing input): the filesystem scanner returns no
    hit for the empty query, and the database scanner returns none when
    the threshold is positive; with the threshold 0 the database scanner
    returns every record, with the score 0. *)
Theorem empty_query_results :
  (forall basepath score_cut,
      scan_files ratio basepath "" "" score_cut = [])
  /\ (forall contents score_cut,
         (0 < score_cut)%Z ->
         scan_rekordbox ratio contents "" "" score_cut = [])
  /\ (forall contents,
         Permutation (scan_rekordbox ratio contents "" "" 0)
           (map (record_hit ratio "" "") contents))
  /\ scan_rekordbox ratio [strobe_record] "" "" 0
     = [mk_hit 0 "Deadmau5 - Strobe (Original Mix)" None].
Proof.
  split; [|split; [|split]].
  - intros basepath score_cut. unfold scan_files.
    rewrite files_results_kept, kept_hits_none; reflexivity.
  - intros contents score_cut Hpos. unfold scan_rekordbox.
    rewrite rekordbox_results_filter.
    replace (filter _ contents) with (@nil content); [reflexivity|].
    induction contents as [|c l IH]; [reflexivity|].
    cbn [filter]. change (record_score ratio "" "" c) with 0%Z.
    destruct (Z.leb_spec score_cut 0); [lia|exact IH].
  - intros contents. unfold scan_rekordbox.
    rewrite sorted_by_score_perm, rekordbox_results_filter.
    replace (filter _ contents) with contents; [reflexivity|].
    induction contents as [|c l IH]; [reflexivity|].
    cbn [filter]. change (record_score ratio "" "" c) with 0%Z.
    cbn. now f_equal.
  - reflexivity.
Qed.

(** An absent or [None] title, an absent or [None] artist and an absent
    name are read as the empty string; a name that is [None] is matched as
    the empty string, but the label of the hit shows it as "None". *)
Lemma record_defaults title artist (t : option value)
  (a : option artist_value) :
  record_hit ratio title artist (mk_content None a)
  = record_hit ratio title artist (mk_content (Some (VStr "")) a)
  /\ record_hit ratio title artist (mk_content (Some VNone) a)
     = record_hit ratio title artist (mk_content (Some (VStr "")) a)
  /\ record_hit ratio title artist (mk_content t None)
     = record_hit ratio title artist
         (mk_content t (Some (AObj (Some (VStr "")))))
  /\ record_hit ratio title artist (mk_content t (Some ANone))
     = record_hit ratio title artist
         (mk_content t (Some (AObj (Some (VStr "")))))
  /\ record_hit ratio title artist (mk_content t (Some (AObj None)))
     = record_hit ratio title artist
         (mk_content t (Some (AObj (Some (VStr "")))))
  /\ record_score ratio title artist
       (mk_content t (Some (AObj (Some VNone))))
     = record_score ratio title artist
         (mk_content t (Some (AObj (Some (VStr "")))))
  /\ item (record_hit ratio title artist
             (mk_content t (Some (AObj (Some VNone)))))
     = "None - " ++ raw_title_of (mk_content t None)
  /\ item (record_hit ratio title artist
             (mk_content t (Some (AObj (Some (VStr ""))))))
     = " - " ++ raw_title_of (mk_content t None).
Proof. repeat split. Qed.

End ScannerFacts.

(** C10 (the code at the failing input): the record whose artist name is
    [None] is scored like the record whose artist name is empty, but it is
    returned with the label "None - X" where that one has " - X". *)
Theorem scan_rekordbox_none_name :
  (forall ratio title artist,
      record_score ratio title artist nameless_record
      = record_score ratio title artist
          (mk_content (Some (VStr "X")) (Some (AObj (Some (VStr ""))))))
  /\ scan_rekordbox exact_ratio [nameless_record] "x" "" 100
     = [mk_hit 100 "None - X" None]
  /\ scan_rekordbox exact_ratio
       [mk_content (Some (VStr "X")) (Some (AObj (Some (VStr ""))))]
       "x" "" 100
     = [mk_hit 100 " - X" None].
Proof.
  split; [|split; reflexivity].
  intros ratio title artist.
  apply (record_defaults ratio title artist (Some (VStr "X")) None).
Qed.

(** ** The traversal *)




Section CandidateFacts.

Variable ratio : string -> string -> Z.


End CandidateFacts.

(** A symbolic link to a directory is listed when its name matches, and
    nothing behind it is yielded. *)
Example rglob_lists_link :
  rglob (Dir "music" "/music"
           [DirLink "more.d" "/mnt/more"; File "a.mp3" "/music/a.mp3"])
  = [mk_found "more.d" [] "/mnt/more"; mk_found "a.mp3" [] "/music/a.mp3"].
Proof. reflexivity. Qed.


(** ** The summary *)

Lemma count_partition {A : Type} (p q r : A -> bool) (l : list A) :
  (forall x, In x l ->
     (p x = true /\ q x = false /\ r x = false)
     \/ (p x = false /\ q x = true /\ r x = false)
     \/ (p x = false /\ q x = false /\ r x = true)) ->
  count_true p l + count_true q l + count_true r l = List.length l.
Proof.
  unfold count_true. induction l as [|x l IH]; intros H; [reflexivity|].
  cbn [filter List.length]. specialize (IH (fun y Hy => H y (or_intror Hy))).
  destruct (H x (or_introl eq_refl))
    as [(-> & -> & ->)|[(-> & -> & ->)|(-> & -> & ->)]];
    cbn [List.length]; lia.
Qed.

Lemma one_bucket (r : result) :
  (in_rb r = true /\ on_fs r = false /\ no_match r = false
   /\ bucket_of r = MatchInRb)
  \/ (in_rb r = false /\ on_fs r = true /\ no_match r = false
      /\ bucket_of r = MatchOnFs)
  \/ (in_rb r = false /\ on_fs r = false /\ no_match r = true
      /\ bucket_of r = NoMatch).
Proof.
  unfold in_rb, on_fs, no_match, bucket_of.
  destruct (rb_count r) as [|n], (fs_count r) as [|m]; simpl; tauto.
Qed.

Lemma length_zero_iff {A : Type} (l : list A) :
  (0 <? List.length l)%nat = true <-> l <> [].
Proof.
  destruct l; cbn; split; intros H; try discriminate; try reflexivity.
  now contradiction H.
Qed.

(** C7: every item falls in exactly one of the three buckets, chosen by
    priority: in the database when it has database hits, whatever the
    filesystem hits; else on the filesystem when it has filesystem hits; else
    unmatched.  The three counts of the summary add up to the number of
    items. *)
Theorem summary_buckets ratio recs dir score_cut items :
  let results := process_items ratio recs dir score_cut items in
  rb_ct results + fs_ct results + none_ct results = List.length items
  /\ forall r, In r results ->
       ((in_rb r = true /\ on_fs r = false /\ no_match r = false
         /\ bucket_of r = MatchInRb)
        \/ (in_rb r = false /\ on_fs r = true /\ no_match r = false
            /\ bucket_of r = MatchOnFs)
        \/ (in_rb r = false /\ on_fs r = false /\ no_match r = true
            /\ bucket_of r = NoMatch))
       /\ (rb_items r <> [] -> bucket_of r = MatchInRb)
       /\ (rb_items r = [] -> fs_items r <> [] -> bucket_of r = MatchOnFs)
       /\ (rb_items r = [] -> fs_items r = [] -> bucket_of r = NoMatch).
Proof.
  intros results. split.
  - unfold rb_ct, fs_ct, none_ct. rewrite count_partition.
    + unfold results, process_items. apply length_map.
    + intros r _. destruct (one_bucket r) as [H|[H|H]]; tauto.
  - intros r Hr. split; [apply one_bucket|].
    unfold results, process_items in Hr. apply in_map_iff in Hr.
    destruct Hr as (row & <- & _). unfold bucket_of.
    cbn [rb_count fs_count rb_items fs_items].
    repeat split.
    + intros H. apply length_zero_iff in H. now rewrite H.
    + intros E H. apply length_zero_iff in H. now rewrite E, H.
    + intros E1 E2. now rewrite E1, E2.
Qed.

(** ** The theorems at work on the examples *)

Lemma exact_ratio_nonneg (a b : string) : (0 <= exact_ratio a b)%Z.
Proof. unfold exact_ratio. destruct (String.eqb a b); lia. Qed.

Lemma nonempty_track_y : "track y" <> "".
Proof. discriminate. Defined.

Lemma nonempty_artist_x : "artist x" <> "".
Proof. discriminate. Defined.

Lemma nonempty_strobe : "strobe" <> "".
Proof. discriminate. Defined.

Lemma nonempty_deadmau5 : "deadmau5" <> "".
Proof. discriminate. Defined.

(** The track under "Artist X" is a hit for the query "track y" by
    "artist x" at the threshold 90; the same track under "Artist Z", whose
    title score is 100 too, is not. *)
Lemma scan_files_title_and_artist_demo :
  In (mk_hit 100 "Track Y.flac" (Some "/music/Artist X/Track Y.flac"))
     (scan_files exact_ratio demo_tree "track y" "artist x" 90)
  /\ forall h,
       In h (scan_files exact_ratio demo_tree "track y" "artist x" 90) ->
       path h <> Some "/music/Artist Z/Track Y.flac".
Proof.
  destruct (scan_files_title_and_artist exact_ratio demo_tree
              "track y" "artist x" 90 nonempty_track_y nonempty_artist_x)
    as (_ & _ & Hmem & Hlow).
  split.
  - apply Hmem.
    exists [mk_found "live.set" [] "/music/live.set"],
      (mk_found "Track Y.flac" ["Artist X"] "/music/Artist X/Track Y.flac"),
      [mk_found "Track Y.flac" ["Artist Z"] "/music/Artist Z/Track Y.flac";
       mk_found "alias.flac" ["Artist Z"] "/music/Artist X/Track Y.flac"].
    split; [reflexivity|]. split; [vm_compute; discriminate|].
    split; [vm_compute; discriminate|]. split; [reflexivity|].
    intros g [<-|[]] _ _. discriminate.
  - apply Hlow. intros f Hin Hp.
    cbv [rglob rglob_under demo_tree flat_map app glob_star_dot_star
           entry_name entry_resolved] in Hin.
    vm_compute in Hin.
    repeat (destruct Hin as [<-|Hin]; [try discriminate Hp|]);
      [reflexivity|contradiction].
Defined.

(** The record of "Strobe (Original Mix)" by "Deadmau5" is the one hit for
    the query "strobe" by "deadmau5" at the threshold 80. *)
Lemma scan_rekordbox_title_and_artist_demo :
  Permutation
    (scan_rekordbox exact_ratio [strobe_record; nameless_record]
       "strobe" "deadmau5" 80)
    [mk_hit 100 "Deadmau5 - Strobe (Original Mix)" None].
Proof.
  exact (proj2 (scan_rekordbox_title_and_artist exact_ratio
                  [strobe_record; nameless_record] "strobe" "deadmau5" 80
                  exact_ratio_nonneg nonempty_strobe nonempty_deadmau5)).
Defined.


(** * Further properties of the program *)

(** ** The normaliser *)

Lemma lower_length (s : string) : length (Str.lower s) = length s.
Proof. induction s as [|c s IH]; simpl; congruence. Qed.

Lemma norm_deletes (s : value) :
  (forall P, Str.all_chars P (Str.lower (or_empty s)) = true ->
             Str.all_chars P (norm s) = true)
  /\ length (norm s) <= length (or_empty s).
Proof.
  assert (D : deletion (fun t : string =>
                Str.strip (strip_features (strip_mix_annotations t)))).
  { apply (deletion_compose
             (fun t : string => strip_features (strip_mix_annotations t))
             Str.strip); [|apply strip_deletion].
    apply (deletion_compose (fun t : string => strip_mix_annotations t)
             (fun t : string => strip_features t));
      [apply strip_mix_deletion|apply strip_features_deletion]. }
  destruct (D (Str.lower (or_empty s))) as (HP & HL & _).
  split; [exact HP|]. rewrite lower_length in HL. exact HL.
Qed.

(** X1: the result of [norm] is in lower case, has no white space at either
    end, is never longer than its lower-cased argument, and is made of
    characters of the lower-cased argument only. *)
Theorem norm_canonical (s : value) :
  Str.lower (norm s) = norm s
  /\ Str.strip (norm s) = norm s
  /\ length (norm s) <= length (Str.lower (or_empty s))
  /\ forall P, Str.all_chars P (Str.lower (or_empty s)) = true ->
               Str.all_chars P (norm s) = true.
Proof.
  split; [apply norm_lowered|]. split; [apply norm_stripped|].
  destruct (norm_deletes s) as [HP HL].
  split; [now rewrite lower_length|exact HP].
Qed.

Lemma prefix_chars (P : ascii -> bool) (p s : string) :
  prefix p s = true -> Str.all_chars P s = true -> Str.all_chars P p = true.
Proof.
  revert s. induction p as [|a p IH]; intros s Hp Hs; [reflexivity|].
  destruct s as [|b s]; [discriminate|]. simpl in Hp.
  destruct (ascii_dec a b) as [->|]; [|discriminate].
  simpl in *. apply andb_true_iff in Hs. destruct Hs as [Hb Hs].
  rewrite Hb. simpl. now apply (IH s).
Qed.

Lemma replace_absent (P : ascii -> bool) (old s : string) :
  Str.all_chars P old = false -> Str.all_chars P s = true ->
  Str.replace old s = s.
Proof.
  intros Hold Hs. unfold Str.replace. destruct old as [|a old]; [reflexivity|].
  induction s as [|c s IH]; [reflexivity|].
  cbn [Str.replace_from].
  destruct (prefix (String a old) (String c s)) eqn:Hp.
  - apply (prefix_chars P) in Hp; [congruence|exact Hs].
  - simpl in Hs. apply andb_true_iff in Hs. f_equal. now apply IH.
Qed.

Lemma sub_no_match (P : ascii -> bool) (ic : bool) (pat : pattern)
  (s : string) (prev : option ascii) :
  (forall prev' x v, P x = true -> match_pat ic pat prev' (String x v) = None) ->
  Str.all_chars P s = true ->
  Re.sub_from ic pat 0 prev s = s.
Proof.
  intros Hno. revert prev. induction s as [|c s IH]; intros prev Hs;
    [reflexivity|].
  simpl in Hs. apply andb_true_iff in Hs. destruct Hs as [Hc Hs].
  cbn [Re.sub_from]. rewrite (Hno prev c s Hc). f_equal. now apply IH.
Qed.

Lemma strip_no_space (s : string) :
  Str.all_chars not_space s = true -> Str.strip s = s.
Proof.
  intros Hs. unfold Str.strip.
  assert (Hl : Str.lstrip s = s).
  { destruct s as [|c s]; [reflexivity|]. simpl in *.
    apply andb_true_iff in Hs. destruct Hs as [Hc _].
    unfold not_space in Hc. apply negb_true_iff in Hc. now rewrite Hc. }
  rewrite Hl. induction s as [|c s IH]; [reflexivity|].
  simpl in Hs. apply andb_true_iff in Hs. destruct Hs as [Hc Hs].
  unfold not_space in Hc. apply negb_true_iff in Hc.
  rewrite rstrip_cons, IH; [|exact Hs|].
  - destruct s; [now rewrite Hc|reflexivity].
  - destruct s as [|d s]; [reflexivity|]. simpl in *.
    apply andb_true_iff in Hs. destruct Hs as [Hd _].
    unfold not_space in Hd. apply negb_true_iff in Hd. now rewrite Hd.
Qed.

Lemma plain_not_space (s : string) :
  Str.all_chars plain s = true -> Str.all_chars not_space s = true.
Proof.
  induction s as [|c s IH]; [reflexivity|]. simpl. intros H.
  apply andb_true_iff in H. destruct H as [Hc Hs]. rewrite (IH Hs).
  unfold plain in Hc. apply andb_true_iff in Hc. destruct Hc as [Hc _].
  apply andb_true_iff in Hc. destruct Hc as [Hc _].
  unfold not_space. now rewrite Hc.
Qed.

Lemma lower_plain_char (c : ascii) : plain c = true -> plain (Char.lower c) = true.
Proof. destruct c as [[] [] [] [] [] [] [] []]; vm_compute; auto. Qed.

Lemma lower_plain (s : string) :
  Str.all_chars plain s = true -> Str.all_chars plain (Str.lower s) = true.
Proof.
  induction s as [|c s IH]; [reflexivity|]. simpl. intros H.
  apply andb_true_iff in H. destruct H as [Hc Hs].
  now rewrite (lower_plain_char c Hc), (IH Hs).
Qed.

Lemma plain_starts_no_feature (x : ascii) :
  plain x = true ->
  in_class true (CChar "(") x = false
  /\ in_class true (CChar ",") x = false
  /\ in_class true CSpace x = false.
Proof. destruct x as [[] [] [] [] [] [] [] []]; vm_compute; auto. Qed.

Lemma feat_patterns_start :
  Forall (fun pat => forall prev x v, plain x = true ->
                       match_pat true pat prev (String x v) = None)
         FEAT_PATTERNS.
Proof.
  repeat constructor; intros prev x v Hx;
    destruct (plain_starts_no_feature x Hx) as (H1 & H2 & H3);
    cbn [match_pat lit app plus match_seq];
    rewrite ?H1, ?H2, ?H3; reflexivity.
Qed.

Lemma mix_pass_plain (s : string) :
  Str.all_chars not_space s = true -> mix_pass s = s.
Proof.
  intros Hs. unfold mix_pass, ORIGINAL_MIX_PATTERNS. cbn [fold_left].
  repeat (rewrite (replace_absent not_space _ s); [|reflexivity|exact Hs]).
  reflexivity.
Qed.

Lemma feat_pass_plain (s : string) :
  Str.all_chars plain s = true -> feat_pass s = s.
Proof.
  intros Hs. unfold feat_pass.
  assert (H := feat_patterns_start).
  induction H as [|pat l Hpat _ IH]; [reflexivity|].
  cbn [fold_left]. unfold Re.sub.
  rewrite (sub_no_match plain true pat s None Hpat Hs). exact IH.
Qed.

(** X2: a string without white space, opening parenthesis or comma is
    normalised to its lower-case form: nothing is stripped from it. *)
Theorem norm_plain (s : string) :
  Str.all_chars plain s = true -> norm s = Str.lower s.
Proof.
  intros Hs. apply lower_plain in Hs.
  assert (Hn := plain_not_space _ Hs).
  unfold norm. cbn [or_empty].
  assert (Hm : strip_mix_annotations (Str.lower s) = Str.lower s).
  { change (Str.strip (mix_pass (Str.lower s)) = Str.lower s).
    rewrite mix_pass_plain by exact Hn. now apply strip_no_space. }
  rewrite Hm.
  assert (Hf : strip_features (Str.lower s) = Str.lower s).
  { change (Str.strip (feat_pass (Str.lower s)) = Str.lower s).
    rewrite feat_pass_plain by exact Hs. now apply strip_no_space. }
  rewrite Hf. now apply strip_no_space.
Qed.

Lemma norm_plain_demo : norm "Deadmau5" = "deadmau5".
Proof. exact (norm_plain "Deadmau5" eq_refl). Defined.

(** ** The tokenizer *)

Lemma separator_matches (prev : option ascii) (x : ascii) (v : string) :
  not_separator x = false ->
  match_pat true ARTIST_SEPARATORS prev (String x v) = Some 1.
Proof.
  intros Hx. unfold ARTIST_SEPARATORS. cbn [match_pat match_seq].
  assert (H : in_class true (CSet [","; "&"; "/"; ";"]%char) x = true).
  { revert Hx. destruct x as [[] [] [] [] [] [] [] []]; vm_compute; auto. }
  now rewrite H.
Qed.

Lemma split_from_pieces (s : string) (skip : nat) (prev : option ascii) :
  Forall (fun p => Str.all_chars not_separator p = true)
    (Re.split_from true ARTIST_SEPARATORS skip prev s).
Proof.
  revert skip prev. induction s as [|x s IH]; intros skip prev.
  - simpl. now repeat constructor.
  - cbn [Re.split_from]. destruct skip as [|k]; [|apply IH].
    assert (Hkeep : not_separator x = true ->
      Forall (fun p => Str.all_chars not_separator p = true)
        match Re.split_from true ARTIST_SEPARATORS 0 (Some x) s with
        | [] => [String x EmptyString]
        | p :: ps => String x p :: ps
        end).
    { intros Hx. specialize (IH 0 (Some x)).
      destruct (Re.split_from true ARTIST_SEPARATORS 0 (Some x) s) as [|p ps].
      - repeat constructor. simpl. now rewrite Hx.
      - apply Forall_cons_iff in IH. destruct IH as [Hp Hps].
        constructor; [|exact Hps]. simpl. now rewrite Hx, Hp. }
    destruct (not_separator x) eqn:Hx.
    + destruct (match_pat true ARTIST_SEPARATORS prev (String x s))
        as [[|n]|];
        [now apply Hkeep|constructor; [reflexivity|apply IH]|now apply Hkeep].
    + rewrite (separator_matches prev x s Hx).
      constructor; [reflexivity|apply IH].
Qed.

(** X3: every token of [split_artists] is non-empty, has no white space at
    either end and contains none of the separators comma, ampersand, slash
    and semicolon. *)
Theorem split_artists_tokens (s : string) :
  Forall (fun t => t <> ""
                   /\ Str.strip t = t
                   /\ Str.all_chars not_separator t = true)
    (split_artists s).
Proof.
  unfold split_artists. apply Forall_forall. intros t Ht.
  apply in_map_iff in Ht. destruct Ht as (p & <- & Hp).
  apply filter_In in Hp. destruct Hp as [Hin Hp].
  split; [now apply truthy_iff|]. split; [apply strip_idem|].
  apply strip_deletion.
  pose proof (split_from_pieces s 0 None) as H.
  rewrite Forall_forall in H. now apply H.
Qed.

(** ** The scanners, all three kinds of query *)

Lemma insert_by_score_first (h : hit) (l : list hit) :
  Forall (fun z => (score z <= score h)%Z) l -> insert_by_score h l = h :: l.
Proof.
  destruct l as [|y l]; [reflexivity|]. intros H. apply Forall_inv in H.
  cbn [insert_by_score]. destruct (Z.ltb_spec (score h) (score y)); [lia|].
  reflexivity.
Qed.

Lemma insert_by_score_filter (q : hit -> bool) (h : hit) (l : list hit) :
  StronglySorted by_score_desc l ->
  filter q (insert_by_score h l)
  = if q h then insert_by_score h (filter q l) else filter q l.
Proof.
  induction l as [|y l IH]; intros Hs.
  - simpl. now destruct (q h).
  - apply StronglySorted_inv in Hs. destruct Hs as [Hl Hy].
    cbn [insert_by_score]. destruct (Z.ltb_spec (score h) (score y)) as [Lt|Ge].
    + cbn [filter]. rewrite (IH Hl).
      destruct (q h), (q y); try reflexivity.
      cbn [insert_by_score]. destruct (Z.ltb_spec (score h) (score y)); [|lia].
      reflexivity.
    + cbn [filter]. destruct (q h) eqn:Qh; [|reflexivity].
      rewrite insert_by_score_first; [reflexivity|].
      assert (Hall : Forall (fun z => (score z <= score h)%Z) (y :: l)).
      { constructor; [exact Ge|].
        eapply Forall_impl; [|exact Hy]. unfold by_score_desc. intros; lia. }
      change (Forall (fun z => (score z <= score h)%Z) (filter q (y :: l))).
      apply Forall_forall. intros z Hz. apply filter_In in Hz.
      rewrite Forall_forall in Hall. now apply Hall.
Qed.

(** Filtering commutes with the final sort. *)
Lemma sorted_by_score_filter (q : hit -> bool) (l : list hit) :
  filter q (sorted_by_score l) = sorted_by_score (filter q l).
Proof.
  induction l as [|h l IH]; [reflexivity|].
  cbn [sorted_by_score filter].
  rewrite insert_by_score_filter by apply sorted_by_score_sorted.
  rewrite IH. now destruct (q h).
Qed.

Lemma filter_filter_impl {A : Type} (p q : A -> bool) (l : list A) :
  (forall x, q x = true -> p x = true) ->
  filter q (filter p l) = filter q l.
Proof.
  intros H. induction l as [|x l IH]; [reflexivity|]. cbn [filter].
  destruct (p x) eqn:Px.
  - cbn [filter]. now rewrite IH.
  - destruct (q x) eqn:Qx; [|exact IH].
    rewrite (H x Qx) in Px. discriminate.
Qed.

Lemma filter_map_swap {A B : Type} (g : A -> B) (q : B -> bool) (l : list A) :
  filter q (map g l) = map g (filter (fun x => q (g x)) l).
Proof.
  induction l as [|x l IH]; [reflexivity|]. cbn [map filter].
  destruct (q (g x)); cbn [map]; now rewrite IH.
Qed.

Lemma filter_none {A : Type} (p : A -> bool) (l : list A) :
  (forall x, In x l -> p x = false) -> filter p l = [].
Proof.
  induction l as [|x l IH]; intros H; [reflexivity|]. cbn [filter].
  rewrite (H x (or_introl eq_refl)). apply IH. intros y Hy. apply H. now right.
Qed.

Lemma best_over_no_input (f : string -> string -> Z) (dbs : list string) :
  best_over f [] dbs = 0%Z.
Proof. reflexivity. Qed.

Lemma best_over_range (f : string -> string -> Z) (ins dbs : list string) :
  (forall a b, 0 <= f a b <= 100)%Z -> (0 <= best_over f ins dbs <= 100)%Z.
Proof.
  intros Hf. rewrite best_over_fold.
  destruct (fold_max_bounds
              (map (fun p => f (fst p) (snd p)) (list_prod ins dbs)) 0)
    as (_ & _ & [E|Hin]).
  - rewrite E. lia.
  - apply in_map_iff in Hin. destruct Hin as (p & <- & _). apply Hf.
Qed.

Lemma max_or_zero_range (l : list Z) :
  Forall (fun x => 0 <= x <= 100)%Z l -> (0 <= max_or_zero l <= 100)%Z.
Proof.
  intros Hl. destruct (max_or_zero_greatest l) as [_ [Hin|[_ ->]]]; [|lia].
  rewrite Forall_forall in Hl. now apply Hl.
Qed.

Section ScannerProperties.

Variable ratio : string -> string -> Z.

Lemma scan_rekordbox_perm contents title artist score_cut :
  Permutation (scan_rekordbox ratio contents title artist score_cut)
    (map (record_hit ratio title artist)
       (filter (fun c => (score_cut <=? record_score ratio title artist c)%Z)
          contents)).
Proof.
  unfold scan_rekordbox.
  now rewrite sorted_by_score_perm, rekordbox_results_filter.
Qed.

Lemma scan_rekordbox_In contents title artist score_cut h :
  In h (scan_rekordbox ratio contents title artist score_cut)
  <-> exists c, In c contents
                /\ (score_cut <= record_score ratio title artist c)%Z
                /\ h = record_hit ratio title artist c.
Proof.
  unfold scan_rekordbox.
  rewrite sorted_by_score_In, rekordbox_results_filter, in_map_iff. split.
  - intros (c & <- & Hc). apply filter_In in Hc. destruct Hc as [Hc Hs].
    exists c. rewrite Z.leb_le in Hs. auto.
  - intros (c & Hc & Hs & ->). exists c. split; [reflexivity|].
    apply filter_In. rewrite Z.leb_le. auto.
Qed.

Lemma file_score_reaches title artist score_cut f b :
  file_score ratio title artist score_cut f = Some b -> (score_cut <= b)%Z.
Proof.
  unfold file_score.
  destruct (Str.truthy title), (Str.truthy artist); cbn [andb];
    try discriminate;
    repeat match goal with
           | |- context [(?a <=? ?b)%Z] => destruct (Z.leb_spec a b)
           end; cbn [andb]; intros E; try discriminate;
    injection E as <-; lia.
Qed.

(** A hit of the filesystem scanner is the hit of the first path, in the
    order of the traversal, that passes among those resolving to its file. *)
Lemma scan_files_In basepath title artist score_cut h :
  In h (scan_files ratio basepath title artist score_cut)
  <-> exists pre f post b,
        rglob basepath = (pre ++ f :: post)%list
        /\ file_score ratio title artist score_cut f = Some b
        /\ h = file_hit b f
        /\ forall g, In g pre ->
                     file_score ratio title artist score_cut g <> None ->
                     f_resolved g <> f_resolved f.
Proof.
  unfold scan_files.
  rewrite sorted_by_score_In, files_results_kept, kept_hits_In. split.
  - intros (pre & f & post & b & E & Hb & Hh & _ & Hpre).
    exists pre, f, post, b. auto.
  - intros (pre & f & post & b & E & Hb & Hh & Hpre).
    exists pre, f, post, b. auto.
Qed.

(** X4: every hit either scanner returns has a score that reaches the
    threshold. *)
Theorem hits_reach_threshold contents basepath title artist score_cut :
  Forall (fun h => (score_cut <= score h)%Z)
    (scan_rekordbox ratio contents title artist score_cut)
  /\ Forall (fun h => (score_cut <= score h)%Z)
       (scan_files ratio basepath title artist score_cut).
Proof.
  split; apply Forall_forall; intros h Hh.
  - apply scan_rekordbox_In in Hh. destruct Hh as (c & _ & Hs & ->).
    exact Hs.
  - apply scan_files_In in Hh. destruct Hh as (pre & f & post & b & _ & Hb & -> & _).
    simpl. now apply file_score_reaches in Hb.
Qed.

Lemma record_score_range title artist c :
  in_range ratio -> (0 <= record_score ratio title artist c <= 100)%Z.
Proof.
  intros Hr. unfold record_score.
  destruct (Str.truthy title), (Str.truthy artist); cbn [andb];
    try apply best_over_range; try apply Hr; try lia.
  intros a b. apply Hr.
Qed.

Lemma artist_score_range artist f :
  in_range ratio -> (0 <= artist_score ratio artist f <= 100)%Z.
Proof.
  intros Hr. apply max_or_zero_range. apply Forall_forall. intros x Hx.
  unfold a_scores in Hx. apply in_flat_map in Hx. destruct Hx as (d & _ & Hx).
  apply in_flat_map in Hx. destruct Hx as (db_a & _ & Hx).
  apply in_map_iff in Hx. destruct Hx as (in_a & <- & _). apply Hr.
Qed.

Lemma file_score_range title artist score_cut f b :
  in_range ratio ->
  file_score ratio title artist score_cut f = Some b -> (0 <= b <= 100)%Z.
Proof.
  intros Hr. pose proof (artist_score_range artist f Hr) as Ha.
  pose proof (Hr title (norm (stem (f_name f)))) as Ht.
  fold (title_score ratio title f) in Ht.
  unfold file_score.
  destruct (Str.truthy title), (Str.truthy artist); cbn [andb];
    try discriminate;
    repeat match goal with
           | |- context [(?a <=? ?b)%Z] => destruct (Z.leb_spec a b)
           end; cbn [andb]; intros E; try discriminate;
    injection E as <-; lia.
Qed.

(** X5: with a scorer that keeps to 0..100, every hit of either scanner
    has a score in 0..100. *)
Theorem hits_in_range contents basepath title artist score_cut :
  in_range ratio ->
  Forall (fun h => (0 <= score h <= 100)%Z)
    (scan_rekordbox ratio contents title artist score_cut)
  /\ Forall (fun h => (0 <= score h <= 100)%Z)
       (scan_files ratio basepath title artist score_cut).
Proof.
  intros Hr. split; apply Forall_forall; intros h Hh.
  - apply scan_rekordbox_In in Hh. destruct Hh as (c & _ & _ & ->).
    now apply record_score_range.
  - apply scan_files_In in Hh.
    destruct Hh as (pre & f & post & b & _ & Hb & -> & _).
    simpl. now apply (file_score_range title artist score_cut f).
Qed.

End ScannerProperties.

Section ScannerBranches.

Variable ratio : string -> string -> Z.

(** X6: for a query with a title and no artist, the database scanner scores
    a record by the similarity of the title and the record's normalised
    title; the artist of the record plays no part, and the records kept are
    those whose score reaches the threshold. *)
Theorem scan_rekordbox_title_only contents title score_cut :
  title <> "" ->
  Permutation (scan_rekordbox ratio contents title "" score_cut)
    (map (fun c => mk_hit (ratio title (norm (raw_title_of c)))
                     (fmt (raw_artist_of c) ++ " - " ++ raw_title_of c)
                     None)
       (filter (fun c => (score_cut <=? ratio title (norm (raw_title_of c)))%Z)
          contents)).
Proof.
  intros Ht. apply truthy_iff in Ht. rewrite scan_rekordbox_perm.
  assert (Hs : forall c, record_score ratio title "" c
                         = ratio title (norm (raw_title_of c))).
  { intros c. unfold record_score. now rewrite Ht. }
  rewrite (filter_ext _ _ (fun c => f_equal (Z.leb score_cut) (Hs c))).
  erewrite map_ext; [reflexivity|].
  intros c. unfold record_hit. now rewrite Hs.
Qed.

(** X7: for a query with an artist and no title, and a scorer that is never
    negative, the database scanner scores a record by the greatest similarity
    of a query artist token and a token of the record's normalised artist
    (the empty string alone when it has none); the title of the record plays
    no part. *)
Theorem scan_rekordbox_artist_only contents artist score_cut :
  (forall a b, 0 <= ratio a b)%Z ->
  artist <> "" ->
  (forall c,
      greatest_or_zero (record_score ratio "" artist c)
        (map (fun p => ratio (fst p) (snd p))
           (list_prod (split_artists artist)
              match split_artists (norm (raw_artist_of c)) with
              | [] => [""]
              | l => l
              end)))
  /\ Permutation (scan_rekordbox ratio contents "" artist score_cut)
       (map (fun c => mk_hit (record_score ratio "" artist c)
                        (fmt (raw_artist_of c) ++ " - " ++ raw_title_of c)
                        None)
          (filter (fun c => (score_cut <=? record_score ratio "" artist c)%Z)
             contents)).
Proof.
  intros Hpos Ha. apply truthy_iff in Ha. split.
  - intros c. unfold record_score, input_artists_of. rewrite Ha. cbn [andb Str.truthy].
    now apply best_over_greatest.
  - apply scan_rekordbox_perm.
Qed.

(** Whether a file has a hit depends on the paths that lead to it alone. *)
Lemma scan_files_path_hit basepath title artist score_cut p :
  (exists h, In h (scan_files ratio basepath title artist score_cut)
             /\ path h = Some p)
  <-> exists f, In f (rglob basepath) /\ f_resolved f = p
                /\ file_score ratio title artist score_cut f <> None.
Proof.
  split.
  - intros (h & Hh & Hp). apply scan_files_In in Hh.
    destruct Hh as (pre & f & post & b & E & Hb & -> & _).
    exists f. simpl in Hp. injection Hp as Hp.
    repeat split; [rewrite E; apply in_elt|exact Hp|congruence].
  - intros (f & Hin & <- & Hok).
    destruct (kept_hits_cover ratio title artist score_cut
                (rglob basepath) [] f Hin Hok) as [Hm|(h & Hh & Hp)];
      [discriminate|].
    exists h. split; [|exact Hp].
    unfold scan_files. now rewrite sorted_by_score_In, files_results_kept.
Qed.

(** X8: for a query with a title and no artist, the filesystem scanner keeps
    a path exactly when the similarity of the title and the normalised stem
    reaches the threshold, with that similarity as the score; the
    directories play no part.  A file has a hit exactly when a path to it
    passes. *)
Theorem scan_files_title_only basepath title score_cut :
  title <> "" ->
  (forall f,
      file_score ratio title "" score_cut f
      = if (score_cut <=? ratio title (norm (stem (f_name f))))%Z
        then Some (ratio title (norm (stem (f_name f)))) else None)
  /\ forall p,
       (exists h, In h (scan_files ratio basepath title "" score_cut)
                  /\ path h = Some p)
       <-> exists f, In f (rglob basepath) /\ f_resolved f = p
                     /\ (score_cut <= ratio title (norm (stem (f_name f))))%Z.
Proof.
  intros Ht. apply truthy_iff in Ht.
  assert (Hs : forall f,
    file_score ratio title "" score_cut f
    = if (score_cut <=? ratio title (norm (stem (f_name f))))%Z
      then Some (ratio title (norm (stem (f_name f)))) else None).
  { intros f. unfold file_score, title_score. now rewrite Ht. }
  split; [exact Hs|]. intros p. rewrite scan_files_path_hit.
  split; intros (f & Hin & Hp & H); exists f; repeat split; auto.
  - rewrite Hs in H.
    destruct (Z.leb_spec score_cut (ratio title (norm (stem (f_name f)))));
      [assumption|congruence].
  - rewrite Hs. apply Z.leb_le in H. rewrite H. discriminate.
Qed.

(** X9: for a query with an artist and no title, the filesystem scanner
    keeps a path exactly when its artist score, the greatest similarity of a
    query artist token and a token of a normalised ancestor directory name
    (0 without such a pair), reaches the threshold; the name of the file plays
    no part.  A file has a hit exactly when a path to it passes. *)
Theorem scan_files_artist_only basepath artist score_cut :
  artist <> "" ->
  (forall f,
      greatest_or_zero (artist_score ratio artist f)
        (flat_map
           (fun d : string =>
              flat_map
                (fun db_a => map (fun in_a => ratio in_a db_a)
                               (split_artists artist))
                (split_artists (norm d)))
           (rel_dirs f)))
  /\ (forall f,
         file_score ratio "" artist score_cut f
         = if (score_cut <=? artist_score ratio artist f)%Z
           then Some (artist_score ratio artist f) else None)
  /\ forall p,
       (exists h, In h (scan_files ratio basepath "" artist score_cut)
                  /\ path h = Some p)
       <-> exists f, In f (rglob basepath) /\ f_resolved f = p
                     /\ (score_cut <= artist_score ratio artist f)%Z.
Proof.
  intros Ha. apply truthy_iff in Ha.
  assert (Hs : forall f,
    file_score ratio "" artist score_cut f
    = if (score_cut <=? artist_score ratio artist f)%Z
      then Some (artist_score ratio artist f) else None).
  { intros f. unfold file_score. now rewrite Ha. }
  split; [|split; [exact Hs|]].
  - intros f. unfold artist_score, a_scores, input_artists_of.
    rewrite Ha. apply max_or_zero_greatest.
  - intros p. rewrite scan_files_path_hit.
    split; intros (f & Hin & Hp & H); exists f; repeat split; auto.
    + rewrite Hs in H.
      destruct (Z.leb_spec score_cut (artist_score ratio artist f));
        [assumption|congruence].
    + rewrite Hs. apply Z.leb_le in H. rewrite H. discriminate.
Qed.

Lemma file_score_needs_artist title artist score_cut f :
  artist <> "" -> (artist_score ratio artist f < score_cut)%Z ->
  file_score ratio title artist score_cut f = None.
Proof.
  intros Ha Hlow. apply truthy_iff in Ha. unfold file_score. rewrite Ha.
  destruct (Z.leb_spec score_cut (artist_score ratio artist f)); [lia|].
  destruct (Str.truthy title); cbn [andb]; [|reflexivity].
  now rewrite andb_false_r.
Qed.

(** X10: a file that lies directly under the root has no ancestor
    directory to compare with the artist, so its artist score is 0: for a
    query with an artist and a positive threshold such a path is never kept,
    whatever its name, and a file reached by such paths only has no hit. *)
Theorem scan_files_root_level basepath title artist score_cut :
  artist <> "" -> (0 < score_cut)%Z ->
  (forall f, rel_dirs f = [] ->
             file_score ratio title artist score_cut f = None)
  /\ forall p,
       (forall f, In f (rglob basepath) -> f_resolved f = p ->
                  rel_dirs f = []) ->
       forall h, In h (scan_files ratio basepath title artist score_cut) ->
                 path h <> Some p.
Proof.
  intros Ha Hpos.
  assert (Hroot : forall f, rel_dirs f = [] ->
            file_score ratio title artist score_cut f = None).
  { intros f Hd. apply file_score_needs_artist; [exact Ha|].
    unfold artist_score, a_scores. rewrite Hd. exact Hpos. }
  split; [exact Hroot|].
  intros p Hp h Hh E.
  destruct (proj1 (scan_files_path_hit basepath title artist score_cut p))
    as (f & Hin & Hf & Hok); [now exists h|].
  apply Hok, Hroot. now apply Hp.
Qed.

Lemma a_scores_no_input artist f :
  input_artists_of artist = [] -> a_scores ratio artist f = [].
Proof.
  intros E. unfold a_scores. rewrite E.
  induction (rel_dirs f) as [|d l IH]; [reflexivity|].
  cbn [flat_map]. rewrite IH, app_nil_r.
  induction (split_artists (norm d)) as [|x l' IH']; [reflexivity|].
  cbn [flat_map map]. exact IH'.
Qed.

(** X11: an artist made of separators and white space only yields no
    token; with a positive threshold the query then matches nothing in either
    scanner, whatever its title. *)
Theorem separators_only_artist contents basepath title artist score_cut :
  artist <> "" -> split_artists artist = [] -> (0 < score_cut)%Z ->
  scan_rekordbox ratio contents title artist score_cut = []
  /\ scan_files ratio basepath title artist score_cut = [].
Proof.
  intros Ha Hsplit Hpos.
  assert (Hin : input_artists_of artist = []).
  { unfold input_artists_of. apply truthy_iff in Ha. now rewrite Ha. }
  split.
  - unfold scan_rekordbox. rewrite rekordbox_results_filter.
    rewrite filter_none; [reflexivity|].
    intros c _. apply Z.leb_gt.
    unfold record_score. rewrite Hin. apply truthy_iff in Ha. rewrite Ha.
    destruct (Str.truthy title); cbn [andb]; rewrite best_over_no_input;
      exact Hpos.
  - unfold scan_files. rewrite files_results_kept, kept_hits_none;
      [reflexivity|].
    intros f. apply file_score_needs_artist; [exact Ha|].
    unfold artist_score. now rewrite a_scores_no_input.
Qed.

(** X12: raising the threshold of the database scanner only removes hits:
    the result for the higher threshold is the result for the lower one
    without the hits below the higher threshold, in the same order. *)
Theorem scan_rekordbox_threshold contents title artist cut1 cut2 :
  (cut1 <= cut2)%Z ->
  scan_rekordbox ratio contents title artist cut2
  = filter (fun h => (cut2 <=? score h)%Z)
      (scan_rekordbox ratio contents title artist cut1).
Proof.
  intros Hle. unfold scan_rekordbox.
  rewrite sorted_by_score_filter, !rekordbox_results_filter.
  rewrite filter_map_swap. cbn [record_hit score].
  rewrite filter_filter_impl; [reflexivity|].
  intros c H. apply Z.leb_le in H. apply Z.leb_le. lia.
Qed.

Lemma file_score_threshold title artist cut1 cut2 f :
  (cut1 <= cut2)%Z ->
  file_score ratio title artist cut2 f <> None ->
  file_score ratio title artist cut1 f <> None.
Proof.
  intros Hle. unfold file_score.
  destruct (Str.truthy title), (Str.truthy artist); cbn [andb]; auto;
    repeat match goal with
           | |- context [(?a <=? ?b)%Z] => destruct (Z.leb_spec a b)
           end; cbn [andb]; try congruence; lia.
Qed.

(** X13: raising the threshold of the filesystem scanner only removes
    files: a file with a hit at the higher threshold has one at the lower. *)
Theorem scan_files_threshold basepath title artist cut1 cut2 p :
  (cut1 <= cut2)%Z ->
  (exists h, In h (scan_files ratio basepath title artist cut2)
             /\ path h = Some p) ->
  exists h, In h (scan_files ratio basepath title artist cut1)
            /\ path h = Some p.
Proof.
  intros Hle H. apply scan_files_path_hit in H. apply scan_files_path_hit.
  destruct H as (f & Hin & Hp & Hok). exists f. repeat split; auto.
  now apply (file_score_threshold title artist cut1 cut2).
Qed.

Lemma subseq_filter {A : Type} (p : A -> bool) (l : list A) :
  subseq (filter p l) l.
Proof.
  induction l as [|x l IH]; [constructor|]. cbn [filter].
  destruct (p x); now constructor.
Qed.

Lemma subseq_length {A : Type} (k l : list A) :
  subseq k l -> List.length k <= List.length l.
Proof. induction 1; simpl; lia. Qed.

(** X14: the hits of the database scanner are, up to their order, the hits
    of some of the records, each record taken at most once, and none has a
    path; the hits of the filesystem scanner are, up to their order, one hit
    for each of some of the yielded paths, each path taken at most once, with
    the name and the resolved path of that path.  So neither scanner returns
    more hits than it has records or yielded paths. *)
Theorem hits_shape contents basepath title artist score_cut :
  (exists kept,
      subseq kept contents
      /\ Permutation (scan_rekordbox ratio contents title artist score_cut)
           (map (fun c => mk_hit (record_score ratio title artist c)
                            (fmt (raw_artist_of c) ++ " - " ++ raw_title_of c)
                            None)
              kept))
  /\ (exists kept hits,
         subseq kept (rglob basepath)
         /\ Forall2 (fun f h => item h = f_name f
                                /\ path h = Some (f_resolved f))
              kept hits
         /\ Permutation (scan_files ratio basepath title artist score_cut) hits)
  /\ List.length (scan_rekordbox ratio contents title artist score_cut)
     <= List.length contents
  /\ Forall (fun h => path h = None)
       (scan_rekordbox ratio contents title artist score_cut)
  /\ List.length (scan_files ratio basepath title artist score_cut)
     <= List.length (rglob basepath)
  /\ Forall (fun h => exists f, In f (rglob basepath)
                                /\ item h = f_name f
                                /\ path h = Some (f_resolved f))
       (scan_files ratio basepath title artist score_cut).
Proof.
  destruct (kept_hits_in_order ratio title artist score_cut
              (rglob basepath) []) as (kept & Hs & Hf).
  assert (Hperm : Permutation
                    (scan_files ratio basepath title artist score_cut)
                    (kept_hits ratio title artist score_cut []
                       (rglob basepath))).
  { unfold scan_files. rewrite files_results_kept.
    apply sorted_by_score_perm. }
  split; [|split; [|split; [|split; [|split]]]].
  - exists (filter
              (fun c => (score_cut <=? record_score ratio title artist c)%Z)
              contents).
    split; [apply subseq_filter|apply scan_rekordbox_perm].
  - exists kept,
      (kept_hits ratio title artist score_cut [] (rglob basepath)).
    split; [exact Hs|]. split; [|exact Hperm].
    eapply Forall2_impl; [|exact Hf].
    intros f h (b & _ & ->). now split.
  - rewrite (Permutation_length
               (scan_rekordbox_perm ratio contents title artist score_cut)).
    rewrite length_map. apply filter_length_le.
  - apply Forall_forall. intros h Hh. apply scan_rekordbox_In in Hh.
    now destruct Hh as (c & _ & _ & ->).
  - rewrite (Permutation_length Hperm), <- (Forall2_length Hf).
    now apply subseq_length.
  - apply Forall_forall. intros h Hh. apply scan_files_In in Hh.
    destruct Hh as (pre & f & post & b & E & _ & -> & _).
    exists f. repeat split. rewrite E. apply in_elt.
Qed.

End ScannerBranches.

(** ** Loading the rows and the summary of [main] *)

Lemma load_items_filter (raw : list json_row) :
  load_items raw = filter has_query (map item_of raw).
Proof.
  unfold load_items.
  enough (H : forall acc,
    fold_left
      (fun items r =>
         let rt := Str.strip (or_empty (dict_get (j_title r))) in
         let ra := Str.strip (or_empty (dict_get (j_artist r))) in
         let t := norm rt in
         let a := norm ra in
         if negb (Str.truthy t || Str.truthy a) then items
         else (items ++ [mk_row t a])%list)
      raw acc
    = (acc ++ filter has_query (map item_of raw))%list) by apply (H []).
  induction raw as [|r raw IH]; intros acc; cbn [fold_left map filter].
  - now rewrite app_nil_r.
  - rewrite IH. unfold has_query at 2, item_of at 2. cbn [row_title row_artist].
    destruct (Str.truthy _ || Str.truthy _); cbn [negb]; [|reflexivity].
    now rewrite <- app_assoc.
Qed.

(** X15: the items [main] loads are, in the order of the input, the rows
    that have a title or an artist left once each field is trimmed and
    normalised; the fields of an item are those normalised values of a row
    of the input; every item has a non-empty title or a non-empty artist, so
    [main] never passes the empty query to a scanner, and both fields are in
    lower case and without white space at either end. *)
Theorem load_items_well_formed (raw : list json_row) :
  load_items raw
  = filter (fun it => Str.truthy (row_title it) || Str.truthy (row_artist it))
      (map (fun r =>
              mk_row (norm (Str.strip (or_empty (dict_get (j_title r)))))
                     (norm (Str.strip (or_empty (dict_get (j_artist r))))))
         raw)
  /\ List.length (load_items raw) <= List.length raw
  /\ Forall (fun it =>
               (row_title it <> "" \/ row_artist it <> "")
               /\ Str.lower (row_title it) = row_title it
               /\ Str.strip (row_title it) = row_title it
               /\ Str.lower (row_artist it) = row_artist it
               /\ Str.strip (row_artist it) = row_artist it)
       (load_items raw)
  /\ Forall (fun it =>
               exists r,
                 In r raw
                 /\ row_title it
                    = norm (Str.strip (or_empty (dict_get (j_title r))))
                 /\ row_artist it
                    = norm (Str.strip (or_empty (dict_get (j_artist r)))))
       (load_items raw).
Proof.
  split; [apply load_items_filter|]. rewrite load_items_filter. split.
  - eapply Nat.le_trans; [apply filter_length_le|]. now rewrite length_map.
  - split; apply Forall_forall; intros it Hit; apply filter_In in Hit;
      destruct Hit as [Hin Hq]; apply in_map_iff in Hin;
      destruct Hin as (r & <- & Hr).
    + split.
      * unfold has_query in Hq. apply orb_true_iff in Hq.
        destruct Hq as [H|H]; apply truthy_iff in H; auto.
      * unfold item_of. cbn [row_title row_artist].
        repeat split; first [apply norm_lowered|apply norm_stripped].
    + exists r. now repeat split.
Qed.

Lemma strip_blank (s : string) :
  Str.all_chars Char.is_space s = true -> Str.strip s = "".
Proof.
  intros Hs. unfold Str.strip.
  replace (Str.lstrip s) with ""; [reflexivity|].
  induction s as [|c s IH]; [reflexivity|]. simpl in *.
  apply andb_true_iff in Hs. destruct Hs as [Hc Hs]. rewrite Hc. now apply IH.
Qed.

(** X16: a row whose title and artist are each absent, [None] or made of
    white space only is skipped: the items loaded are the same without it. *)
Theorem load_items_skips_blank (raw1 raw2 : list json_row) (r : json_row) :
  blank (j_title r) = true -> blank (j_artist r) = true ->
  load_items (raw1 ++ r :: raw2) = load_items (raw1 ++ raw2).
Proof.
  intros Ht Ha.
  assert (Hq : has_query (item_of r) = false).
  { unfold has_query, item_of. cbn [row_title row_artist].
    unfold blank in Ht, Ha. now rewrite (strip_blank _ Ht), (strip_blank _ Ha). }
  rewrite !load_items_filter, !map_app, !filter_app.
  f_equal. cbn [map filter]. now rewrite Hq.
Qed.

(** X17: the three counts of the summary add up to the number of items
    loaded, which is at most the number of rows of the input; without a
    directory to scan no item is counted as matched on the filesystem. *)
Theorem summary_totals ratio recs dir score_cut raw :
  let '(rb, fs, none) := summary ratio recs dir score_cut raw in
  rb + fs + none = List.length (load_items raw)
  /\ rb + fs + none <= List.length raw
  /\ (dir = None -> fs = 0).
Proof.
  unfold summary.
  assert (Htotal :
    rb_ct (process_items ratio recs dir score_cut (load_items raw))
    + fs_ct (process_items ratio recs dir score_cut (load_items raw))
    + none_ct (process_items ratio recs dir score_cut (load_items raw))
    = List.length (load_items raw)).
  { unfold rb_ct, fs_ct, none_ct. rewrite count_partition.
    - unfold process_items. apply length_map.
    - intros r _. destruct (one_bucket r) as [H|[H|H]]; tauto. }
  split; [exact Htotal|]. split.
  - rewrite Htotal, load_items_filter.
    eapply Nat.le_trans; [apply filter_length_le|]. now rewrite length_map.
  - intros ->. unfold fs_ct, count_true. rewrite filter_none; [reflexivity|].
    intros r Hr. unfold process_items in Hr. apply in_map_iff in Hr.
    destruct Hr as (it & <- & _). unfold on_fs. cbn [rb_count fs_count].
    apply andb_false_r.
Qed.

(** ** Annotations at the end of a one-word title *)

Lemma lower_app (s1 s2 : string) :
  Str.lower (s1 ++ s2) = Str.lower s1 ++ Str.lower s2.
Proof. induction s1 as [|c s1 IH]; simpl; congruence. Qed.

Lemma not_space_literal (c : ascii) :
  not_space c = true -> Ascii.eqb c " " = false.
Proof. destruct c as [[] [] [] [] [] [] [] []]; vm_compute; auto. Qed.

Lemma prefix_clash (old u w : string) :
  clash old w = true -> Str.all_chars not_space u = true ->
  prefix old (u ++ String " " w) = false.
Proof.
  revert u. induction old as [|a old IH]; intros u Hc Hu; [discriminate|].
  cbn [clash] in Hc. destruct u as [|x u].
  - cbn [append prefix]. destruct (ascii_dec a " ") as [->|Hne]; [|reflexivity].
    cbn in Hc. destruct old as [|c old]; [discriminate|].
    destruct w as [|d w]; [reflexivity|]. cbn [prefix].
    destruct (ascii_dec c d) as [->|]; [|reflexivity].
    now rewrite Ascii.eqb_refl in Hc.
  - cbn [Str.all_chars] in Hu. apply andb_true_iff in Hu. destruct Hu as [Hx Hu].
    cbn [append prefix]. destruct (ascii_dec a x) as [->|]; [|reflexivity].
    rewrite (not_space_literal x Hx) in Hc. now apply IH.
Qed.

(** No occurrence of [old] starts in a word that is followed by a space and
    by a text with which [old] clashes. *)
Lemma replace_past_word (old u w : string) :
  clash old w = true -> Str.all_chars not_space u = true ->
  Str.replace old (u ++ String " " w) = u ++ Str.replace old (String " " w).
Proof.
  intros Hc. unfold Str.replace. destruct old as [|a old]; [discriminate|].
  induction u as [|x u IH]; intros Hu; [reflexivity|].
  cbn [append Str.replace_from].
  change (String x (u ++ String " " w)) with (String x u ++ String " " w).
  rewrite (prefix_clash _ _ _ Hc Hu).
  cbn [Str.all_chars] in Hu. apply andb_true_iff in Hu. now rewrite IH.
Qed.

Lemma append_empty (s : string) : s ++ "" = s.
Proof. induction s as [|c s IH]; simpl; congruence. Qed.

Lemma append_assoc (s1 s2 s3 : string) : (s1 ++ s2) ++ s3 = s1 ++ s2 ++ s3.
Proof. induction s1 as [|c s1 IH]; simpl; congruence. Qed.

Lemma rstrip_nonspace (c : ascii) (s : string) :
  not_space c = true -> Str.rstrip (String c s) = String c (Str.rstrip s).
Proof.
  intros Hc. unfold not_space in Hc. apply negb_true_iff in Hc.
  rewrite rstrip_cons. destruct (Str.rstrip s); [now rewrite Hc|reflexivity].
Qed.

Lemma rstrip_word (u w : string) :
  Str.all_chars not_space u = true ->
  Str.rstrip (u ++ w) = u ++ Str.rstrip w.
Proof.
  induction u as [|x u IH]; intros Hu; [reflexivity|].
  cbn [Str.all_chars] in Hu. apply andb_true_iff in Hu. destruct Hu as [Hx Hu].
  cbn [append]. rewrite (rstrip_nonspace x _ Hx). now rewrite IH.
Qed.

Lemma lstrip_word (u w : string) :
  u <> "" -> Str.all_chars not_space u = true ->
  Str.lstrip (u ++ w) = u ++ w.
Proof.
  destruct u as [|x u]; [congruence|]. intros _ Hu.
  cbn [Str.all_chars] in Hu. apply andb_true_iff in Hu. destruct Hu as [Hx _].
  unfold not_space in Hx. apply negb_true_iff in Hx.
  cbn [append Str.lstrip]. now rewrite Hx.
Qed.

Lemma strip_word_space (u : string) :
  Str.all_chars not_space u = true -> Str.strip (u ++ " ") = u.
Proof.
  intros Hu. unfold Str.strip. destruct u as [|x u]; [reflexivity|].
  rewrite lstrip_word by (congruence || exact Hu).
  rewrite rstrip_word by exact Hu.
  change (Str.rstrip " ") with "". apply append_empty.
Qed.

Ltac past_word u Hn :=
  rewrite (replace_past_word _ u); [|reflexivity|exact Hn];
  match goal with
  | |- context [Str.replace ?o (String " "%char ?w)] =>
      let r := eval vm_compute in (Str.replace o (String " "%char w)) in
      change (Str.replace o (String " "%char w)) with r
  end.

Lemma mix_pass_suffix (u a : string) :
  Str.all_chars not_space u = true -> In a ORIGINAL_MIX_PATTERNS ->
  mix_pass (u ++ String " " a) = u ++ " ".
Proof.
  intros Hn Ha. unfold mix_pass. unfold ORIGINAL_MIX_PATTERNS at 1.
  cbn [fold_left].
  destruct Ha as [<-|[<-|[<-|[<-|[]]]]]; repeat past_word u Hn; reflexivity.
Qed.

(** X18: a title of one word followed by a space and one of the four mix
    annotations, in any casing, is normalised to the word in lower case: the
    string is lower-cased before the annotations are looked for. *)
Theorem norm_mix_suffix (t a : string) :
  Str.all_chars plain t = true ->
  In (Str.lower a) ORIGINAL_MIX_PATTERNS ->
  norm (t ++ " " ++ a) = Str.lower t.
Proof.
  intros Ht Ha. apply lower_plain in Ht.
  assert (Hn := plain_not_space _ Ht).
  unfold norm. cbn [or_empty]. rewrite !lower_app.
  change (Str.lower " " ++ Str.lower a) with (String " " (Str.lower a)).
  assert (Hm : strip_mix_annotations (Str.lower t ++ String " " (Str.lower a))
               = Str.lower t).
  { change (Str.strip (mix_pass (Str.lower t ++ String " " (Str.lower a)))
            = Str.lower t).
    rewrite mix_pass_suffix by assumption. now apply strip_word_space. }
  rewrite Hm.
  assert (Hf : strip_features (Str.lower t) = Str.lower t).
  { change (Str.strip (feat_pass (Str.lower t)) = Str.lower t).
    rewrite feat_pass_plain by exact Ht. now apply strip_no_space. }
  rewrite Hf. now apply strip_no_space.
Qed.

Lemma all_chars_app (P : ascii -> bool) (s1 s2 : string) :
  Str.all_chars P (s1 ++ s2) = Str.all_chars P s1 && Str.all_chars P s2.
Proof.
  induction s1 as [|c s1 IH]; [reflexivity|]. simpl.
  now rewrite IH, andb_assoc.
Qed.

Lemma all_chars_impl (P Q : ascii -> bool) (s : string) :
  (forall c, P c = true -> Q c = true) ->
  Str.all_chars P s = true -> Str.all_chars Q s = true.
Proof.
  intros H. induction s as [|c s IH]; [reflexivity|]. simpl. intros Hs.
  apply andb_true_iff in Hs. destruct Hs as [Hc Hs].
  now rewrite (H c Hc), (IH Hs).
Qed.

Lemma keeps_head_compose (u k : string) (f g : string -> string) :
  keeps_head u k f -> keeps_head u k g -> keeps_head u k (fun s => g (f s)).
Proof.
  intros Hf Hg y Hy. destruct (Hf y Hy) as (y1 & Hy1 & E1).
  destruct (Hg y1 Hy1) as (y2 & Hy2 & E2).
  exists y2. split; [exact Hy2|]. now rewrite E1.
Qed.

Lemma keeps_head_fold {A : Type} (u k : string)
  (step : string -> A -> string) (l : list A) :
  Forall (fun a => keeps_head u k (fun s => step s a)) l ->
  keeps_head u k (fun s => fold_left step l s).
Proof.
  induction 1 as [|a l Ha _ IH]; cbn [fold_left].
  - intros y Hy. now exists y.
  - apply (keeps_head_compose u k (fun s => step s a)
             (fun s => fold_left step l s)); assumption.
Qed.

Lemma keeps_head_replace (u k old : string) :
  Str.all_chars not_space u = true ->
  (forall y, clash old (k ++ y) = true) ->
  (forall y, Str.replace old (String " " (k ++ y))
             = String " " (k ++ Str.replace old y)) ->
  keeps_head u k (Str.replace old).
Proof.
  intros Hu Hc Hk y Hy. exists (Str.replace old y).
  split; [now apply replace_deletion|].
  rewrite replace_past_word by auto. now rewrite Hk.
Qed.

Lemma keeps_head_mix_pass (u k : string) :
  Str.all_chars not_space u = true -> k = "ft" \/ k = "feat" ->
  keeps_head u k mix_pass.
Proof.
  intros Hu Hk. unfold mix_pass. apply keeps_head_fold.
  destruct Hk as [->| ->];
    repeat constructor;
    repeat (apply (keeps_head_compose _ _ (fun t => Str.replace _ (Str.replace _ t))
                     (Str.replace _))
            || apply (keeps_head_compose _ _ (Str.replace _) (Str.replace _)));
    apply keeps_head_replace; first [exact Hu|intros y; reflexivity].
Qed.

Lemma keeps_head_strip (u k : string) :
  u <> "" -> Str.all_chars not_space u = true -> k = "ft" \/ k = "feat" ->
  keeps_head u k Str.strip.
Proof.
  intros Hne Hu Hk y Hy. exists (Str.rstrip y).
  split; [now apply rstrip_deletion|].
  unfold Str.strip. rewrite lstrip_word by assumption.
  rewrite rstrip_word by assumption. f_equal.
  rewrite rstrip_cons.
  destruct Hk as [->| ->]; cbn [append];
    rewrite !rstrip_nonspace by reflexivity; reflexivity.
Qed.

(** Where no match starts, [re.sub] copies. *)
Lemma sub_over (P : ascii -> bool) (ic : bool) (pat : pattern)
  (v y : string) (prev : option ascii) :
  (forall prev' x s, P x = true -> match_pat ic pat prev' (String x s) = None) ->
  Str.all_chars P v = true ->
  exists prev', Re.sub_from ic pat 0 prev (v ++ y)
                = v ++ Re.sub_from ic pat 0 prev' y.
Proof.
  intros Hno. revert prev. induction v as [|x v IH]; intros prev Hv.
  - now exists prev.
  - cbn [Str.all_chars] in Hv. apply andb_true_iff in Hv. destruct Hv as [Hx Hv].
    destruct (IH (Some x) Hv) as (prev' & E). exists prev'.
    cbn [append Re.sub_from]. rewrite (Hno prev x (v ++ y) Hx). now rewrite E.
Qed.

Lemma no_opener_starts (x : ascii) :
  no_opener x = true ->
  in_class true (CChar "(") x = false /\ in_class true (CChar ",") x = false.
Proof. destruct x as [[] [] [] [] [] [] [] []]; vm_compute; auto. Qed.

Lemma not_space_starts (x : ascii) :
  not_space x = true -> in_class true CSpace x = false.
Proof. unfold not_space. intros H. now apply negb_true_iff in H. Qed.

Lemma plain_no_opener (c : ascii) : plain c = true -> no_opener c = true.
Proof. destruct c as [[] [] [] [] [] [] [] []]; vm_compute; auto. Qed.

Lemma plain_char_not_space (c : ascii) : plain c = true -> not_space c = true.
Proof. destruct c as [[] [] [] [] [] [] [] []]; vm_compute; auto. Qed.

Lemma keeps_head_sub_opener (u k : string) (pat : pattern) :
  Str.all_chars no_opener (u ++ String " " k) = true ->
  (forall prev x s, no_opener x = true ->
                    match_pat true pat prev (String x s) = None) ->
  keeps_head u k (Re.sub true pat).
Proof.
  intros Hv Hno y Hy.
  change (u ++ String " " (k ++ y)) with (u ++ (String " " k ++ y)).
  rewrite <- append_assoc. unfold Re.sub.
  destruct (sub_over no_opener true pat (u ++ String " " k) y None Hno Hv)
    as (prev' & E).
  exists (Re.sub_from true pat 0 prev' y).
  split; [now apply sub_from_deletion|].
  rewrite E, append_assoc. reflexivity.
Qed.

Lemma match_seq_star_cons (ic : bool) (c : cclass) (p : seq)
  (prev : option ascii) (x : ascii) (s : string) :
  match_seq ic (Star c :: p) prev (String x s)
  = if in_class ic c x
    then match match_seq ic (Star c :: p) (Some x) s with
         | Some n => Some (S n)
         | None => match_seq ic p prev (String x s)
         end
    else match_seq ic p prev (String x s).
Proof. reflexivity. Qed.

Lemma star_dot_to_end (prev : option ascii) (y : string) :
  Str.all_chars not_newline y = true ->
  match_seq true [Star CDot; Eos] prev y = Some (length y).
Proof.
  revert prev. induction y as [|x y IH]; intros prev Hy; [reflexivity|].
  cbn [Str.all_chars] in Hy. apply andb_true_iff in Hy. destruct Hy as [Hx Hy].
  rewrite match_seq_star_cons.
  change (in_class true CDot x) with (not_newline x). rewrite Hx.
  now rewrite (IH (Some x) Hy).
Qed.

(** The tail of the last four feature patterns, an optional period and the
    rest of the line, matches a whole line. *)
Lemma feat_tail_to_end (prev : option ascii) (y : string) :
  Str.all_chars not_newline y = true ->
  match_seq true feat_tail prev y = Some (length y).
Proof.
  intros Hy. unfold feat_tail. destruct y as [|x y].
  - reflexivity.
  - change (match_seq true [Opt (CChar "."); Star CDot; Eos] prev (String x y))
      with (if in_class true (CChar ".") x
            then match match_seq true [Star CDot; Eos] (Some x) y with
                 | Some n => Some (S n)
                 | None => match_seq true [Star CDot; Eos] prev (String x y)
                 end
            else match_seq true [Star CDot; Eos] prev (String x y)).
    pose proof (star_dot_to_end prev (String x y) Hy) as H1.
    cbn [Str.all_chars] in Hy. apply andb_true_iff in Hy. destruct Hy as [_ Hy].
    rewrite (star_dot_to_end (Some x) y Hy), H1.
    now destruct (in_class true (CChar ".") x).
Qed.

Lemma sub_from_skip_all (ic : bool) (pat : pattern) (s : string)
  (skip : nat) (prev : option ascii) :
  length s <= skip -> Re.sub_from ic pat skip prev s = "".
Proof.
  revert skip prev. induction s as [|x s IH]; intros skip prev Hl;
    [reflexivity|].
  cbn [length] in Hl. destruct skip as [|k]; [lia|].
  cbn [Re.sub_from]. apply IH. lia.
Qed.

(** A feature clause after a word is deleted to the end of the line. *)
Lemma sub_feature_clause (u k y : string) :
  Str.all_chars not_space u = true ->
  Str.all_chars not_newline y = true ->
  k = "ft" \/ k = "feat" ->
  Re.sub true [plus CSpace ++ lit k ++ feat_tail]%list (u ++ String " " (k ++ y))
  = u.
Proof.
  intros Hu Hy Hk. unfold Re.sub.
  destruct (sub_over not_space true [plus CSpace ++ lit k ++ feat_tail]%list
              u (String " " (k ++ y)) None) as (prev' & E).
  - intros prev x s Hx. apply not_space_starts in Hx.
    cbn [match_pat plus app match_seq]. now rewrite Hx.
  - exact Hu.
  - rewrite E. rewrite <- (append_empty u) at 2. f_equal.
    destruct Hk as [->| ->]; cbn [append Re.sub_from].
    + change (match_pat true [plus CSpace ++ lit "ft" ++ feat_tail]%list prev'
                (String " " (String "f" (String "t" y))))
        with (match option_map S (option_map S (option_map S
                      (match_seq true feat_tail (Some "t"%char) y))) with
              | Some n => Some n
              | None => None
              end).
      rewrite (feat_tail_to_end _ y Hy). cbn [option_map].
      apply sub_from_skip_all. cbn [length]. lia.
    + change (match_pat true [plus CSpace ++ lit "feat" ++ feat_tail]%list prev'
                (String " " (String "f" (String "e" (String "a" (String "t" y))))))
        with (match option_map S (option_map S (option_map S (option_map S
                      (option_map S
                         (match_seq true feat_tail (Some "t"%char) y))))) with
              | Some n => Some n
              | None => None
              end).
      rewrite (feat_tail_to_end _ y Hy). cbn [option_map].
      apply sub_from_skip_all. cbn [length]. lia.
Qed.

Lemma lower_not_newline_char (c : ascii) :
  not_newline c = true -> not_newline (Char.lower c) = true.
Proof. destruct c as [[] [] [] [] [] [] [] []]; vm_compute; auto. Qed.

Lemma lower_not_newline (s : string) :
  Str.all_chars not_newline s = true ->
  Str.all_chars not_newline (Str.lower s) = true.
Proof.
  induction s as [|c s IH]; [reflexivity|]. simpl. intros H.
  apply andb_true_iff in H. destruct H as [Hc Hs].
  now rewrite (lower_not_newline_char c Hc), (IH Hs).
Qed.

Lemma opener_patterns_start (pat : pattern) :
  In pat (firstn 4 FEAT_PATTERNS) ->
  forall prev x s, no_opener x = true ->
                   match_pat true pat prev (String x s) = None.
Proof.
  intros Hin prev x s Hx. destruct (no_opener_starts x Hx) as [H1 H2].
  cbn in Hin. destruct Hin as [<-|[<-|[<-|[<-|[]]]]];
    cbn [match_pat lit app match_seq]; rewrite ?H1, ?H2; reflexivity.
Qed.

Lemma feat_pass_clause (u k y : string) :
  Str.all_chars plain u = true ->
  Str.all_chars not_newline y = true ->
  k = "ft" \/ k = "feat" ->
  feat_pass (u ++ String " " (k ++ y)) = u.
Proof.
  intros Hu Hy Hk.
  assert (Hn : Str.all_chars not_space u = true).
  { now apply (all_chars_impl plain not_space _ plain_char_not_space). }
  assert (Hv : Str.all_chars no_opener (u ++ String " " k) = true).
  { rewrite all_chars_app.
    rewrite (all_chars_impl plain no_opener _ plain_no_opener Hu).
    now destruct Hk as [->| ->]. }
  assert (K : forall pat, In pat (firstn 4 FEAT_PATTERNS) ->
                          keeps_head u k (Re.sub true pat)).
  { intros pat Hpat. apply keeps_head_sub_opener; [exact Hv|].
    now apply opener_patterns_start. }
  unfold feat_pass, FEAT_PATTERNS. cbn [fold_left].
  destruct (K _ (or_introl eq_refl) y Hy) as (y1 & Hy1 & ->).
  destruct (K _ (or_intror (or_introl eq_refl)) y1 Hy1) as (y2 & Hy2 & ->).
  destruct (K _ (or_intror (or_intror (or_introl eq_refl))) y2 Hy2)
    as (y3 & Hy3 & ->).
  destruct (K _ (or_intror (or_intror (or_intror (or_introl eq_refl)))) y3 Hy3)
    as (y4 & Hy4 & ->).
  pose proof feat_patterns_start as Hplain. unfold FEAT_PATTERNS in Hplain.
  do 4 apply Forall_inv_tail in Hplain.
  destruct Hk as [->| ->].
  - rewrite (sub_feature_clause u "ft" y4 Hn Hy4 (or_introl eq_refl)).
    apply Forall_inv_tail, Forall_inv in Hplain.
    unfold Re.sub. now apply (sub_no_match plain).
  - apply Forall_inv in Hplain.
    assert (E5 : exists y5,
      Str.all_chars not_newline y5 = true
      /\ Re.sub true [plus CSpace ++ lit "ft" ++ feat_tail]%list
           (u ++ String " " ("feat" ++ y4))
         = u ++ String " " ("feat" ++ y5)).
    { unfold Re.sub.
      destruct (sub_over not_space true
                  [plus CSpace ++ lit "ft" ++ feat_tail]%list
                  u (String " " ("feat" ++ y4)) None) as (prev' & E).
      - intros prev x s Hx. apply not_space_starts in Hx.
        cbn [match_pat plus app match_seq]. now rewrite Hx.
      - exact Hn.
      - exists (Re.sub_from true [plus CSpace ++ lit "ft" ++ feat_tail]%list 0
                  (Some "t"%char) y4).
        split; [now apply sub_from_deletion|]. rewrite E. reflexivity. }
    destruct E5 as (y5 & Hy5 & ->).
    apply (sub_feature_clause u "feat" y5 Hn Hy5 (or_intror eq_refl)).
Qed.

(** X19: a title of one word followed by white space and a word that
    begins with "ft" or "feat", in any casing, is normalised to the first
    word in lower case: everything from the space to the end of the line is
    stripped as a feature annotation. *)
Theorem norm_feature_clause (t kw y : string) :
  t <> "" ->
  Str.all_chars plain t = true ->
  Str.all_chars not_newline y = true ->
  Str.lower kw = "ft" \/ Str.lower kw = "feat" ->
  norm (t ++ " " ++ kw ++ y) = Str.lower t.
Proof.
  intros Hne Ht Hy Hk. apply lower_plain in Ht. apply lower_not_newline in Hy.
  assert (Hn := plain_not_space _ Ht).
  assert (Hne' : Str.lower t <> "") by (destruct t; [congruence|discriminate]).
  unfold norm. cbn [or_empty]. rewrite !lower_app.
  change (Str.lower " " ++ Str.lower kw ++ Str.lower y)
    with (String " " (Str.lower kw ++ Str.lower y)).
  set (u := Str.lower t) in *. set (k := Str.lower kw) in *.
  assert (Hm : keeps_head u k (fun s => Str.strip (mix_pass s))).
  { apply (keeps_head_compose u k mix_pass Str.strip).
    - now apply keeps_head_mix_pass.
    - now apply keeps_head_strip. }
  destruct (Hm (Str.lower y) Hy) as (y1 & Hy1 & E1).
  change (strip_mix_annotations (u ++ String " " (k ++ Str.lower y)))
    with (Str.strip (mix_pass (u ++ String " " (k ++ Str.lower y)))).
  rewrite E1.
  change (strip_features (u ++ String " " (k ++ y1)))
    with (Str.strip (feat_pass (u ++ String " " (k ++ y1)))).
  rewrite feat_pass_clause by assumption.
  rewrite !(strip_no_space u Hn). reflexivity.
Qed.

(** ** Splitting a joined list of artists *)

Lemma match_separators_prev (p1 p2 : option ascii) (s : string) :
  word_before p1 = word_before p2 ->
  match_pat true ARTIST_SEPARATORS p1 s = match_pat true ARTIST_SEPARATORS p2 s.
Proof.
  intros H. unfold ARTIST_SEPARATORS. destruct s as [|x s].
  - cbn [match_pat match_seq app lit]. now rewrite H.
  - cbn [match_pat match_seq app lit]. now rewrite H.
Qed.

Lemma split_from_prev (p1 p2 : option ascii) (s : string) :
  word_before p1 = word_before p2 ->
  Re.split_from true ARTIST_SEPARATORS 0 p1 s
  = Re.split_from true ARTIST_SEPARATORS 0 p2 s.
Proof.
  intros H. destruct s as [|x s]; [reflexivity|].
  cbn [Re.split_from]. now rewrite (match_separators_prev p1 p2 _ H).
Qed.

Lemma nonword_no_letter (y : ascii) :
  Char.is_word y = false ->
  in_class true (CChar "a") y = false
  /\ in_class true (CChar "n") y = false
  /\ in_class true (CChar "d") y = false.
Proof. destruct y as [[] [] [] [] [] [] [] []]; vm_compute; auto. Qed.

Ltac split_ifs :=
  repeat match goal with
         | |- context [if ?b then _ else _] => destruct b
         end; try reflexivity.

(** What follows a text does not change the match at its start, when it
    begins with no word character. *)
Lemma match_separators_app (prev : option ascii) (s r : string) :
  s <> "" -> word_at r = false ->
  match_pat true ARTIST_SEPARATORS prev (s ++ r)
  = match_pat true ARTIST_SEPARATORS prev s.
Proof.
  intros Hs Hr. unfold ARTIST_SEPARATORS.
  assert (Hy : match r with
               | EmptyString => True
               | String y _ =>
                   in_class true (CChar "a") y = false
                   /\ in_class true (CChar "n") y = false
                   /\ in_class true (CChar "d") y = false
               end).
  { destruct r as [|y r]; [exact I|]. now apply nonword_no_letter. }
  destruct s as [|c1 [|c2 [|c3 [|c4 s]]]]; [congruence| | | |];
    destruct r as [|y r];
    cbn [append match_pat match_seq app lit word_at option_map] in *;
    try destruct Hy as (Ha & Hn & Hd);
    rewrite ?Ha, ?Hn, ?Hd, ?Hr; split_ifs.
Qed.

Lemma split_from_cons_inv (prev : option ascii) (x : ascii) (a : string) :
  Re.split_from true ARTIST_SEPARATORS 0 prev (String x a) = [String x a] ->
  (forall n, match_pat true ARTIST_SEPARATORS prev (String x a) <> Some (S n))
  /\ Re.split_from true ARTIST_SEPARATORS 0 (Some x) a = [a].
Proof.
  cbn [Re.split_from].
  assert (Hkeep :
    match Re.split_from true ARTIST_SEPARATORS 0 (Some x) a with
    | [] => [String x EmptyString]
    | p :: ps => String x p :: ps
    end = [String x a] ->
    Re.split_from true ARTIST_SEPARATORS 0 (Some x) a = [a]).
  { destruct (Re.split_from true ARTIST_SEPARATORS 0 (Some x) a) as [|p ps] eqn:E;
      intros H.
    - injection H as <-. discriminate E.
    - injection H as -> ->. reflexivity. }
  destruct (match_pat true ARTIST_SEPARATORS prev (String x a)) as [[|n]|];
    intros H; try discriminate H; (split; [congruence|now apply Hkeep]).
Qed.

Lemma split_from_nonempty (ic : bool) (pat : pattern) (s : string)
  (skip : nat) (prev : option ascii) :
  Re.split_from ic pat skip prev s <> [].
Proof.
  revert skip prev. induction s as [|x s IH]; intros skip prev; [discriminate|].
  cbn [Re.split_from]. destruct skip as [|k]; [|apply IH].
  destruct (match_pat ic pat prev (String x s)) as [[|n]|]; try discriminate;
    destruct (Re.split_from ic pat 0 (Some x) s); discriminate.
Qed.

(** A text that the separators do not split is not split either when it is
    followed by a text that begins with no word character. *)
Lemma split_from_app (a r : string) (prev : option ascii) :
  Re.split_from true ARTIST_SEPARATORS 0 prev a = [a] ->
  word_at r = false ->
  exists prev',
    Re.split_from true ARTIST_SEPARATORS 0 prev (a ++ r)
    = prepend a (Re.split_from true ARTIST_SEPARATORS 0 prev' r).
Proof.
  intros Ha Hr. revert prev Ha. induction a as [|x a IH]; intros prev Ha.
  - exists prev. cbn [append].
    destruct (Re.split_from true ARTIST_SEPARATORS 0 prev r) eqn:E;
      [|reflexivity].
    now apply split_from_nonempty in E.
  - apply split_from_cons_inv in Ha. destruct Ha as [Hno Ha].
    destruct (IH (Some x) Ha) as (prev' & E). exists prev'.
    cbn [append Re.split_from].
    change (String x (a ++ r)) with (String x a ++ r).
    rewrite match_separators_app by (congruence || exact Hr).
    rewrite E.
    destruct (match_pat true ARTIST_SEPARATORS prev (String x a)) as [[|n]|];
      [| now contradiction (Hno n) |];
      destruct (Re.split_from true ARTIST_SEPARATORS 0 prev' r); reflexivity.
Qed.

Lemma split_from_length (s : string) (skip : nat) (prev : option ascii) :
  total_length (Re.split_from true ARTIST_SEPARATORS skip prev s) <= length s
  /\ (total_length (Re.split_from true ARTIST_SEPARATORS skip prev s)
      = length s ->
      Re.split_from true ARTIST_SEPARATORS skip prev s = [s]).
Proof.
  revert skip prev. induction s as [|x s IH]; intros skip prev.
  - cbn. auto.
  - cbn [Re.split_from length].
    assert (Hdrop : forall k l,
      l = Re.split_from true ARTIST_SEPARATORS k (Some x) s ->
      total_length l <= S (length s)
      /\ (total_length l = S (length s) -> l = [String x s])).
    { intros k l ->. destruct (IH k (Some x)) as [L _]. split; [lia|lia]. }
    assert (Hkeep :
      total_length
        match Re.split_from true ARTIST_SEPARATORS 0 (Some x) s with
        | [] => [String x EmptyString]
        | p :: ps => String x p :: ps
        end <= S (length s)
      /\ (total_length
            match Re.split_from true ARTIST_SEPARATORS 0 (Some x) s with
            | [] => [String x EmptyString]
            | p :: ps => String x p :: ps
            end = S (length s) ->
          match Re.split_from true ARTIST_SEPARATORS 0 (Some x) s with
          | [] => [String x EmptyString]
          | p :: ps => String x p :: ps
          end = [String x s])).
    { destruct (IH 0 (Some x)) as [L E].
      destruct (Re.split_from true ARTIST_SEPARATORS 0 (Some x) s) as [|p ps].
      - cbn in *. split; [lia|]. intros H.
        assert (E0 : [] = [s]) by (apply E; lia). discriminate.
      - cbn [total_length fold_right length] in *. split; [lia|].
        intros H. assert (E0 : p :: ps = [s]) by (apply E; lia).
        injection E0 as -> ->. reflexivity. }
    destruct skip as [|k]; [|exact (Hdrop k _ eq_refl)].
    destruct (match_pat true ARTIST_SEPARATORS prev (String x s)) as [[|n]|];
      [exact Hkeep| |exact Hkeep].
    destruct (Hdrop n _ eq_refl) as [L E].
    cbn [total_length fold_right length]. split; [exact L|].
    intros H. apply E in H. cbn in H.
    destruct (IH n (Some x)) as [L' _]. rewrite H in L'.
    cbn [total_length fold_right length] in L'. lia.
Qed.

Lemma piece_length (p : string) (l : list string) :
  In p l -> length p <= total_length l.
Proof.
  induction l as [|q l IH]; [contradiction|]. cbn [total_length fold_right].
  intros [->|H]; [lia|]. apply IH in H. unfold total_length in H. lia.
Qed.

(** A string that is its own single token is not split, is not empty and has
    no white space at either end. *)
Lemma single_token (a : string) :
  split_artists a = [a] ->
  Re.split true ARTIST_SEPARATORS a = [a] /\ a <> "" /\ Str.strip a = a.
Proof.
  intros H.
  assert (Hin : In a (split_artists a)) by (rewrite H; now left).
  unfold split_artists in Hin. apply in_map_iff in Hin.
  destruct Hin as (p & Hp & Hin). apply filter_In in Hin.
  destruct Hin as [Hin Hq].
  assert (Hne : a <> "") by (rewrite <- Hp; now apply truthy_iff).
  assert (Hs : Str.strip a = a) by (rewrite <- Hp; apply strip_idem).
  split; [|auto].
  unfold Re.split in *. apply split_from_length.
  destruct (split_from_length a 0 None) as [L _].
  pose proof (piece_length p _ Hin) as Lp.
  destruct (strip_deletion p) as (_ & Ls & _). rewrite Hp in Ls. lia.
Qed.

Lemma prepend_empty (l : list string) : l <> [] -> prepend "" l = l.
Proof. destruct l; [congruence|reflexivity]. Qed.

Ltac separator_case l r last :=
  exists l, r, last;
  split; [first [now left|now right]|];
  split; [first [now left|now right]|];
  split; [reflexivity|];
  split; [intros rest; reflexivity|];
  intros prev rest;
  rewrite ?prepend_empty by apply split_from_nonempty;
  cbn; try destruct (word_before prev); reflexivity.

(** How a separator text between two texts is split: it leaves at most a
    space on either side. *)
Lemma separator_split (sep : string) :
  In sep SEPARATOR_TEXTS ->
  exists l r last,
    (l = "" \/ l = " ") /\ (r = "" \/ r = " ")
    /\ Char.is_word last = false
    /\ (forall rest, word_at (sep ++ rest) = false)
    /\ forall prev rest,
         Re.split_from true ARTIST_SEPARATORS 0 prev (sep ++ rest)
         = l :: prepend r
                  (Re.split_from true ARTIST_SEPARATORS 0 (Some last) rest).
Proof.
  intros Hin. unfold SEPARATOR_TEXTS in Hin.
  destruct Hin as [<-|[<-|[<-|[<-|[<-|[<-|[<-|[<-|[<-|[<-|[<-|[<-|[]]]]]]]]]]]]].
  - separator_case "" "" ","%char.
  - separator_case "" " " " "%char.
  - separator_case " " " " " "%char.
  - separator_case "" "" "&"%char.
  - separator_case " " " " " "%char.
  - separator_case "" "" "/"%char.
  - separator_case " " " " " "%char.
  - separator_case "" "" ";"%char.
  - separator_case "" " " " "%char.
  - separator_case " " " " " "%char.
  - separator_case " " " " " "%char.
  - separator_case " " " " " "%char.
Qed.

Lemma rstrip_space_end (s : string) : Str.rstrip (s ++ " ") = Str.rstrip s.
Proof.
  induction s as [|c s IH]; [reflexivity|].
  cbn [append]. now rewrite !rstrip_cons, IH.
Qed.

Lemma strip_token_space (a : string) :
  a <> "" -> Str.strip a = a -> Str.strip (a ++ " ") = a.
Proof.
  intros Hne Hs. unfold Str.strip in *.
  pose proof (lstrip_head a) as Hh.
  assert (Hr : Str.rstrip a = a).
  { rewrite <- Hs at 1. rewrite rstrip_idem. exact Hs. }
  destruct (Str.lstrip a) as [|c b] eqn:Eb.
  - cbn in Hs. congruence.
  - assert (Hc : not_space c = true) by (unfold not_space; now rewrite Hh).
    rewrite (rstrip_nonspace c b Hc) in Hs. rewrite <- Hs at 1.
    cbn [append Str.lstrip]. rewrite Hh.
    change (String c (Str.rstrip b ++ " ")) with (String c (Str.rstrip b) ++ " ").
    rewrite Hs. now rewrite rstrip_space_end.
Qed.

(** X20: a string that is a single token of its own, followed by a
    separator text and any text, is split into that token and the tokens of
    the text: splitting undoes joining with a separator. *)
Theorem split_artists_joined (a sep rest : string) :
  split_artists a = [a] -> In sep SEPARATOR_TEXTS ->
  split_artists (a ++ sep ++ rest) = a :: split_artists rest.
Proof.
  intros Ha Hsep.
  destruct (single_token a Ha) as (Hsplit & Hne & Hstrip).
  destruct (separator_split sep Hsep)
    as (l & r & last & Hl & Hr & Hlast & Hw & E).
  unfold split_artists, Re.split in *.
  destruct (split_from_app a (sep ++ rest) None Hsplit (Hw rest)) as (prev' & E1).
  rewrite E1, E. cbn [prepend].
  rewrite (split_from_prev (Some last) None rest) by exact Hlast.
  assert (Hal : Str.strip (a ++ l) = a).
  { destruct Hl as [->| ->]; [now rewrite append_empty|].
    now apply strip_token_space. }
  cbn [filter]. rewrite Hal.
  apply truthy_iff in Hne. rewrite Hne. cbn [map]. rewrite Hal. f_equal.
  pose proof (split_from_nonempty true ARTIST_SEPARATORS rest 0 None) as Hy.
  destruct (Re.split_from true ARTIST_SEPARATORS 0 None rest) as [|p ps];
    [congruence|].
  cbn [prepend filter].
  assert (Hrp : Str.strip (r ++ p) = Str.strip p).
  { destruct Hr as [->| ->]; reflexivity. }
  rewrite Hrp. destruct (Str.truthy (Str.strip p)); cbn [map];
    now rewrite ?Hrp.
Qed.

(** ** The further theorems at work on the examples *)

Lemma exact_ratio_in_range : in_range exact_ratio.
Proof. intros a b. unfold exact_ratio. destruct (String.eqb a b); lia. Qed.

Lemma hits_in_range_demo :
  Forall (fun h => (0 <= score h <= 100)%Z)
    (scan_rekordbox exact_ratio [strobe_record] "track y" "artist x" 90)
  /\ Forall (fun h => (0 <= score h <= 100)%Z)
       (scan_files exact_ratio demo_tree "track y" "artist x" 90).
Proof.
  exact (hits_in_range exact_ratio [strobe_record] demo_tree
           "track y" "artist x" 90 exact_ratio_in_range).
Defined.

Lemma nonempty_cons (c : ascii) (s : string) : String c s <> "".
Proof. discriminate. Defined.

Lemma scan_rekordbox_title_only_demo :
  Permutation
    (scan_rekordbox exact_ratio [strobe_record; nameless_record] "strobe" "" 80)
    [mk_hit 100 "Deadmau5 - Strobe (Original Mix)" None].
Proof.
  exact (scan_rekordbox_title_only exact_ratio
           [strobe_record; nameless_record] "strobe" 80 (nonempty_cons _ _)).
Defined.

Lemma scan_rekordbox_artist_only_demo :
  Permutation
    (scan_rekordbox exact_ratio [strobe_record; nameless_record]
       "" "deadmau5" 80)
    [mk_hit 100 "Deadmau5 - Strobe (Original Mix)" None].
Proof.
  exact (proj2 (scan_rekordbox_artist_only exact_ratio
                  [strobe_record; nameless_record] "deadmau5" 80
                  exact_ratio_nonneg (nonempty_cons _ _))).
Defined.

Lemma scan_files_title_only_demo :
  exists h, In h (scan_files exact_ratio demo_tree "track y" "" 90)
            /\ path h = Some "/music/Artist Z/Track Y.flac".
Proof.
  apply (proj2 (scan_files_title_only exact_ratio demo_tree "track y" 90
                  (nonempty_cons _ _))).
  exists (mk_found "Track Y.flac" ["Artist Z"] "/music/Artist Z/Track Y.flac").
  split; [vm_compute; tauto|]. split; [reflexivity|vm_compute; discriminate].
Defined.

Lemma scan_files_artist_only_demo :
  exists h, In h (scan_files exact_ratio demo_tree "" "artist x" 90)
            /\ path h = Some "/music/Artist X/Track Y.flac".
Proof.
  apply (proj2 (proj2 (scan_files_artist_only exact_ratio demo_tree
                         "artist x" 90 (nonempty_cons _ _)))).
  exists (mk_found "Track Y.flac" ["Artist X"] "/music/Artist X/Track Y.flac").
  split; [vm_compute; tauto|]. split; [reflexivity|vm_compute; discriminate].
Defined.

(** The directory "live.set" lies directly under the root: a query with an
    artist never returns it. *)
Lemma scan_files_root_level_demo :
  Forall (fun h => path h <> Some "/music/live.set")
    (scan_files exact_ratio demo_tree "live" "live" 1).
Proof.
  apply Forall_forall.
  apply (proj2 (scan_files_root_level exact_ratio demo_tree "live" "live" 1
                  (nonempty_cons _ _) eq_refl)).
  intros f Hin Hp. vm_compute in Hin.
  repeat (destruct Hin as [<-|Hin]; [try discriminate Hp; reflexivity|]).
  contradiction.
Defined.

Lemma separators_only_artist_demo :
  scan_rekordbox exact_ratio [strobe_record] "strobe" " & " 1 = []
  /\ scan_files exact_ratio demo_tree "strobe" " & " 1 = [].
Proof.
  exact (separators_only_artist exact_ratio [strobe_record] demo_tree
           "strobe" " & " 1 (nonempty_cons _ _) eq_refl eq_refl).
Defined.

Lemma scan_rekordbox_threshold_demo :
  scan_rekordbox exact_ratio [strobe_record; nameless_record] "strobe" "" 80
  = filter (fun h => (80 <=? score h)%Z)
      (scan_rekordbox exact_ratio [strobe_record; nameless_record]
         "strobe" "" 0).
Proof.
  apply (scan_rekordbox_threshold exact_ratio
           [strobe_record; nameless_record] "strobe" "" 0 80).
  discriminate.
Defined.

Lemma scan_files_threshold_demo :
  exists h, In h (scan_files exact_ratio demo_tree "track y" "artist x" 50)
            /\ path h = Some "/music/Artist X/Track Y.flac".
Proof.
  apply (scan_files_threshold exact_ratio demo_tree "track y" "artist x"
           50 90 "/music/Artist X/Track Y.flac").
  - discriminate.
  - exists (mk_hit 100 "Track Y.flac" (Some "/music/Artist X/Track Y.flac")).
    split; [vm_compute; tauto|reflexivity].
Defined.

Lemma load_items_skips_blank_demo :
  load_items [mk_json_row (Some (VStr "Strobe")) (Some (VStr "Deadmau5"));
              mk_json_row (Some (VStr "   ")) None;
              mk_json_row (Some VNone) (Some (VStr "Artist X"))]
  = [mk_row "strobe" "deadmau5"; mk_row "" "artist x"].
Proof.
  exact (load_items_skips_blank
           [mk_json_row (Some (VStr "Strobe")) (Some (VStr "Deadmau5"))]
           [mk_json_row (Some VNone) (Some (VStr "Artist X"))]
           (mk_json_row (Some (VStr "   ")) None) eq_refl eq_refl).
Defined.

Lemma norm_mix_suffix_demo : norm "Strobe (Original Mix)" = "strobe".
Proof.
  exact (norm_mix_suffix "Strobe" "(Original Mix)" eq_refl (or_introl eq_refl)).
Defined.

Lemma norm_feature_clause_demo : norm "Song feat. Artist" = "song".
Proof.
  exact (norm_feature_clause "Song" "feat" ". Artist"
           (nonempty_cons _ _) eq_refl eq_refl (or_intror eq_refl)).
Defined.

Lemma split_artists_joined_demo :
  split_artists "Deadmau5 & Kaskade, Skrillex"
  = ["Deadmau5"; "Kaskade"; "Skrillex"].
Proof.
  apply (split_artists_joined "Deadmau5" " & " "Kaskade, Skrillex");
    [reflexivity|cbn; tauto].
Defined.
